(** * Verification of the environment-spec extension of apigee-remote-service-envoy

    The development embeds [config/environment_spec_ext.go] (package
    [config]): the emptiness predicates on authentication requirements and
    consumer authorizations, the aggregate accessor [JWTAuthentications],
    the template cache and the constructor [NewEnvironmentSpecExt].

    Go slices are lists, Go maps are [gmap]s, Go interfaces with a closed
    set of known implementers are inductive types with one further
    constructor for any other implementer and one for the nil interface. *)

From Stdlib Require Import Ascii String.
From stdpp Require Import gmap strings list fin_maps.

Open Scope string_scope.
Open Scope list_scope.

Set Warnings "-register-all,-clear-no-such-hyp".

(** ** Data model *)

(** [const wildcard = "*"] *)
Definition wildcard : string := "*".

(** The [ParamMatch] interface: [Header], [Query] and [JWTClaim] are its
    implementers in the package; the tests add one of their own
    ([testParamMatch]), and the field can be left nil. *)
Inductive ParamMatch : Type :=
  | Header (h : string)
  | Query (q : string)
  | JWTClaim (Requirement : string) (Name : string)
  | OtherMatch (tag : string)
  | NoMatch.

Record StringTransformation : Type := mkStringTransformation {
  Template : string;
  Substitution : string
}.

Record APIOperationParameter : Type := mkAPIOperationParameter {
  Match : ParamMatch;
  Transformation : StringTransformation
}.

(** The [JWKSSource] interface: [RemoteJWKS] is the only implementer of the
    package, [testJWKSSource] the one of the tests.  [CacheDuration] is a
    [time.Duration], a count of nanoseconds. *)
Inductive JWKSSource : Type :=
  | RemoteJWKS (URL : string) (CacheDuration : Z)
  | OtherJWKS (tag : string)
  | NoJWKS.

Record JWTAuthentication : Type := mkJWTAuthentication {
  jwt_Name : string;
  jwt_Issuer : string;
  jwt_Audiences : list string;
  jwt_JWKSSource : JWKSSource;
  jwt_In : list APIOperationParameter
}.

(** [AuthenticationRequirement] is a struct with a [Disabled] flag and a
    [Requirements] field of interface type [AuthenticationRequirements],
    implemented by [JWTAuthentication], [AnyAuthenticationRequirements] and
    [AllAuthenticationRequirements] (both slices of
    [AuthenticationRequirement]). *)
Inductive AuthenticationRequirement : Type :=
  | mkAuthenticationRequirement
      (disabled : bool) (requirements : AuthenticationRequirements)
with AuthenticationRequirements : Type :=
  | NoRequirements
  | JWT (j : JWTAuthentication)
  | AnyAuthenticationRequirements (rs : list AuthenticationRequirement)
  | AllAuthenticationRequirements (rs : list AuthenticationRequirement)
  | OtherRequirements (tag : string).

Definition Disabled (a : AuthenticationRequirement) : bool :=
  match a with mkAuthenticationRequirement d _ => d end.

Definition Requirements (a : AuthenticationRequirement)
  : AuthenticationRequirements :=
  match a with mkAuthenticationRequirement _ r => r end.

Record ConsumerAuthorization : Type := mkConsumerAuthorization {
  ca_Disabled : bool;
  ca_In : list APIOperationParameter
}.

(** ** Emptiness *)

(** [func (c ConsumerAuthorization) isEmpty() bool] *)
Definition ConsumerAuthorization_isEmpty (c : ConsumerAuthorization) : bool :=
  negb (ca_Disabled c) && (length (ca_In c) =? 0)%nat.

(** [func isEmpty(auth AuthenticationRequirement) bool]: a type switch on
    the [Requirements] field; each of the two slice cases runs a loop that
    returns [false] at the first child that is not empty, and every path
    that leaves the switch reaches the final [return true]. *)
Fixpoint isEmpty (auth : AuthenticationRequirement) : bool :=
  match auth with
  | mkAuthenticationRequirement _ reqs =>
      match reqs with
      | JWT _ => false
      | AnyAuthenticationRequirements a =>
          (fix loop (rs : list AuthenticationRequirement) : bool :=
             match rs with
             | [] => true
             | r :: rs' => if negb (isEmpty r) then false else loop rs'
             end) a
      | AllAuthenticationRequirements a =>
          (fix loop (rs : list AuthenticationRequirement) : bool :=
             match rs with
             | [] => true
             | r :: rs' => if negb (isEmpty r) then false else loop rs'
             end) a
      | NoRequirements | OtherRequirements _ => true
      end
  end.

(** [func (a AuthenticationRequirement) IsEmpty() bool] *)
Definition IsEmpty (a : AuthenticationRequirement) : bool :=
  negb (Disabled a) && isEmpty a.

(** The loop of [isEmpty] over a slice of children, named. *)
Fixpoint childrenEmpty (rs : list AuthenticationRequirement) : bool :=
  match rs with
  | [] => true
  | r :: rs' => if negb (isEmpty r) then false else childrenEmpty rs'
  end.

(** A requirement tree holds a JWT leaf at some depth. *)
Inductive containsJWT : AuthenticationRequirement → Prop :=
  | containsJWT_leaf d j :
      containsJWT (mkAuthenticationRequirement d (JWT j))
  | containsJWT_any d rs r :
      r ∈ rs → containsJWT r →
      containsJWT (mkAuthenticationRequirement d (AnyAuthenticationRequirements rs))
  | containsJWT_all d rs r :
      r ∈ rs → containsJWT r →
      containsJWT (mkAuthenticationRequirement d (AllAuthenticationRequirements rs)).

(** ** The specification tree *)

Record HTTPMatch : Type := mkHTTPMatch {
  PathTemplate : string;
  Method : string
}.

Record AddNameValue : Type := mkAddNameValue {
  anv_Name : string;
  anv_Value : string;
  anv_Append : bool
}.

Record NameValueTransforms : Type := mkNameValueTransforms {
  Add : list AddNameValue;
  Remove : list string
}.

Record HTTPRequestTransforms : Type := mkHTTPRequestTransforms {
  HeaderTransforms : NameValueTransforms;
  QueryTransforms : NameValueTransforms;
  PathTransform : string
}.

Record CorsPolicy : Type := mkCorsPolicy {
  AllowOrigins : list string;
  AllowOriginsRegexes : list string
}.

(** Modelled from the spec: the declarations of the specification types
    are not in the sources; their fields are those the constructor and the
    tests use.  The unexported field [jwtAuthentications] of an operation
    and of an API, ranged over with [for _, v := range] by
    [JWTAuthentications], is the flattened list of JWT requirements that
    validation fills. *)
Record APIOperation : Type := mkAPIOperation {
  op_Name : string;
  HTTPMatches : list HTTPMatch;
  op_Authentication : AuthenticationRequirement;
  op_ConsumerAuthorization : ConsumerAuthorization;
  op_HTTPRequestTransforms : HTTPRequestTransforms;
  op_jwtAuthentications : list JWTAuthentication
}.

Record APISpec : Type := mkAPISpec {
  api_ID : string;
  BasePath : string;
  api_Authentication : AuthenticationRequirement;
  api_ConsumerAuthorization : ConsumerAuthorization;
  Operations : list APIOperation;
  api_HTTPRequestTransforms : HTTPRequestTransforms;
  Cors : CorsPolicy;
  api_jwtAuthentications : list JWTAuthentication
}.

Record EnvironmentSpec : Type := mkEnvironmentSpec {
  ID : string;
  APIs : list APISpec
}.

(** ** Emptiness of request transforms *)

(** [func (u NameValueTransforms) isEmpty() bool] *)
Definition NameValueTransforms_isEmpty (u : NameValueTransforms) : bool :=
  (length (Add u) =? 0)%nat && (length (Remove u) =? 0)%nat.

(** [strings.TrimSpace]: a first loop skips the leading bytes that are
    ASCII white space and a second loop the trailing ones; as soon as one
    of them meets a byte that is not ASCII ([c >= utf8.RuneSelf]) the rest
    is handed to the Unicode-aware [TrimFunc], or [TrimRightFunc], of the
    standard library, which are taken as they are. *)
Definition asciiSpace (c : Ascii.ascii) : bool :=
  match nat_of_ascii c with
  | 9 | 10 | 11 | 12 | 13 | 32 => true
  | _ => false
  end%nat.

Definition isASCIIByte (c : Ascii.ascii) : bool := (nat_of_ascii c <? 128)%nat.

(** The first loop: [inl] when it leaves for [TrimFunc] with [s[start:]],
    [inr] with [s[start:]] when it ends or breaks. *)
Fixpoint trimStart (s : list Ascii.ascii)
  : list Ascii.ascii + list Ascii.ascii :=
  match s with
  | [] => inr []
  | c :: s' =>
      if negb (isASCIIByte c) then inl s
      else if negb (asciiSpace c) then inr s
      else trimStart s'
  end.

(** The second loop, on the bytes of [s[start:]] from the last one down:
    [inl] when it leaves for [TrimRightFunc] with [s[start:stop]], [inr]
    with [s[start:stop]] when it ends or breaks; both in reverse. *)
Fixpoint trimStop (reversed : list Ascii.ascii)
  : list Ascii.ascii + list Ascii.ascii :=
  match reversed with
  | [] => inr []
  | c :: rest =>
      if negb (isASCIIByte c) then inl reversed
      else if negb (asciiSpace c) then inr reversed
      else trimStop rest
  end.

Section TrimSpace.
Variable unicode_TrimFunc : string → string.
Variable unicode_TrimRightFunc : string → string.

Definition strings_TrimSpace (s : string) : string :=
  match trimStart (list_ascii_of_string s) with
  | inl rest => unicode_TrimFunc (string_of_list_ascii rest)
  | inr rest =>
      match trimStop (rev rest) with
      | inl reversed => unicode_TrimRightFunc (string_of_list_ascii (rev reversed))
      | inr reversed => string_of_list_ascii (rev reversed)
      end
  end.

(** [func (h HTTPRequestTransforms) isEmpty() bool] *)
Definition HTTPRequestTransforms_isEmpty (h : HTTPRequestTransforms) : bool :=
  NameValueTransforms_isEmpty (HeaderTransforms h)
  && NameValueTransforms_isEmpty (QueryTransforms h)
  && (String.length (strings_TrimSpace (PathTransform h)) =? 0)%nat.

End TrimSpace.

(** ** What the constructor takes from outside the file

    [transform.Parse] returns a template pointer and an error;
    [regexp.MustCompile] returns a compiled expression or panics; the
    constant [anyMethod] is declared next to the specification types. *)
Class Externals : Type := {
  Template_t : Type;
  error : Type;
  Regexp : Type;
  transform_Parse : string → option Template_t * option error;
  regexp_Compile : string → option Regexp;
  anyMethod : string
}.

(** [strings.Split(s, sep)] for a separator of one byte. *)
Fixpoint strings_Split (s : string) (sep : Ascii.ascii) : list string :=
  match s with
  | EmptyString => [""]
  | String c s' =>
      if decide (c = sep) then "" :: strings_Split s' sep
      else match strings_Split s' sep with
           | h :: t => String c h :: t
           | [] => [String c ""]
           end
  end.

(** [strings.Join(elems, sep)] for a separator of one byte. *)
Fixpoint strings_Join (elems : list string) (sep : Ascii.ascii) : string :=
  match elems with
  | [] => ""
  | x :: rest =>
      match rest with
      | [] => x
      | _ :: _ => x +:+ String sep (strings_Join rest sep)
      end
  end.

(** [path.Tree] comes from another module; the constructor only creates
    trees and calls [AddChild] on them, so a tree is represented by the
    sequence of the [AddChild] calls it received, each with the segments
    from the start index on. *)
Definition Tree (V : Type) : Type := list (list string * V).

Definition path_NewTree {V : Type} : Tree V := [].

Definition AddChild {V : Type} (t : Tree V) (path : list string) (idx : nat)
    (value : V) : Tree V :=
  t ++ [(drop idx path, value)].

Section Model.
Context `{Ext : Externals}.

Record OpTemplateMatch : Type := mkOpTemplateMatch {
  operation : APIOperation;
  template : option Template_t
}.

Record EnvironmentSpecExt : Type := mkEnvironmentSpecExt {
  ext_EnvironmentSpec : EnvironmentSpec;
  apiPathTree : Tree APISpec;
  opPathTree : Tree OpTemplateMatch;
  compiledTemplates : gmap string (option Template_t);
  corsVary : gmap string bool;
  corsAllowedOrigins : gmap string (gmap string bool);
  compiledRegExps : gmap string Regexp
}.

(** [func (e EnvironmentSpecExt) JWTAuthentications() []*JWTAuthentication] *)
Definition JWTAuthentications (e : EnvironmentSpecExt) : list JWTAuthentication :=
  fold_left
    (λ auths api,
       let auths :=
         fold_left (λ auths v, auths ++ [v]) (api_jwtAuthentications api) auths in
       fold_left
         (λ auths op,
            fold_left (λ auths v, auths ++ [v]) (op_jwtAuthentications op) auths)
         (Operations api) auths)
    (APIs (ext_EnvironmentSpec e)) [].

(** [func (e *EnvironmentSpecExt) GetTemplate(templateString string)]: a
    key that is absent from a Go map reads as the zero value, nil. *)
Definition GetTemplate (e : EnvironmentSpecExt) (templateString : string)
  : option Template_t :=
  default None (compiledTemplates e !! templateString).

(** *** Construction: state, errors and panics *)

Inductive outcome (A : Type) : Type :=
  | Ok (a : A)
  | Failed (err : error)
  | Panicked.
Arguments Ok {A} a.
Arguments Failed {A} err.
Arguments Panicked {A}.

Definition M (A : Type) : Type := EnvironmentSpecExt → outcome (A * EnvironmentSpecExt).

Definition ret {A} (a : A) : M A := λ e, Ok (a, e).

Definition bind {A B} (m : M A) (k : A → M B) : M B :=
  λ e, match m e with
       | Ok (a, e') => k a e'
       | Failed err => Failed err
       | Panicked => Panicked
       end.

Definition get : M EnvironmentSpecExt := λ e, Ok (e, e).

Definition modify (f : EnvironmentSpecExt → EnvironmentSpecExt) : M unit :=
  λ e, Ok (tt, f e).

Definition panic {A} : M A := λ _, Panicked.

(** [if err != nil { return nil, err }] *)
Definition check (err : option error) : M unit :=
  λ e, match err with
       | Some x => Failed x
       | None => Ok (tt, e)
       end.

(** [for _, x := range xs { body }] *)
Fixpoint forM_ {A} (xs : list A) (body : A → M unit) : M unit :=
  match xs with
  | [] => ret tt
  | x :: xs' => bind (body x) (λ _, forM_ xs' body)
  end.

Definition set_apiPathTree (f : Tree APISpec → Tree APISpec)
    (e : EnvironmentSpecExt) : EnvironmentSpecExt :=
  mkEnvironmentSpecExt (ext_EnvironmentSpec e) (f (apiPathTree e)) (opPathTree e)
    (compiledTemplates e) (corsVary e) (corsAllowedOrigins e) (compiledRegExps e).

Definition set_opPathTree (f : Tree OpTemplateMatch → Tree OpTemplateMatch)
    (e : EnvironmentSpecExt) : EnvironmentSpecExt :=
  mkEnvironmentSpecExt (ext_EnvironmentSpec e) (apiPathTree e) (f (opPathTree e))
    (compiledTemplates e) (corsVary e) (corsAllowedOrigins e) (compiledRegExps e).

Definition set_compiledTemplates
    (f : gmap string (option Template_t) → gmap string (option Template_t))
    (e : EnvironmentSpecExt) : EnvironmentSpecExt :=
  mkEnvironmentSpecExt (ext_EnvironmentSpec e) (apiPathTree e) (opPathTree e)
    (f (compiledTemplates e)) (corsVary e) (corsAllowedOrigins e) (compiledRegExps e).

Definition set_corsVary (f : gmap string bool → gmap string bool)
    (e : EnvironmentSpecExt) : EnvironmentSpecExt :=
  mkEnvironmentSpecExt (ext_EnvironmentSpec e) (apiPathTree e) (opPathTree e)
    (compiledTemplates e) (f (corsVary e)) (corsAllowedOrigins e) (compiledRegExps e).

Definition set_corsAllowedOrigins
    (f : gmap string (gmap string bool) → gmap string (gmap string bool))
    (e : EnvironmentSpecExt) : EnvironmentSpecExt :=
  mkEnvironmentSpecExt (ext_EnvironmentSpec e) (apiPathTree e) (opPathTree e)
    (compiledTemplates e) (corsVary e) (f (corsAllowedOrigins e)) (compiledRegExps e).

Definition set_compiledRegExps (f : gmap string Regexp → gmap string Regexp)
    (e : EnvironmentSpecExt) : EnvironmentSpecExt :=
  mkEnvironmentSpecExt (ext_EnvironmentSpec e) (apiPathTree e) (opPathTree e)
    (compiledTemplates e) (corsVary e) (corsAllowedOrigins e) (f (compiledRegExps e)).

End Model.

Arguments Ok {Ext A} a.
Arguments Failed {Ext A} err.
Arguments Panicked {Ext A}.

Declare Scope build_scope.
Delimit Scope build_scope with build.
Notation "'let*' x ':=' m 'in' k" := (bind m (λ x, k))
  (at level 10, x pattern, m at level 100, k at level 200) : build_scope.
Notation "m >> k" := (bind m (λ _, k))
  (at level 90, right associativity) : build_scope.

(** ** The constructor *)

Section Constructor.
Context `{Ext : Externals}.
Open Scope build_scope.

(** [func (e *EnvironmentSpecExt) parseTemplate(templateString string)]:
    the template is stored in the cache before the error is looked at. *)
Definition parseTemplate (templateString : string)
  : M (option Template_t * option error) :=
  if decide (templateString = "") then ret (None, None)
  else
    let '(template, err) := transform_Parse templateString in
    modify (set_compiledTemplates (λ m, <[templateString := template]> m)) >>
    ret (template, err).

(** [func (e *EnvironmentSpecExt) parseAPIOperationParameter(s StringTransformation) error] *)
Definition parseAPIOperationParameter (s : StringTransformation)
  : M (option error) :=
  if bool_decide (Template s = "") && bool_decide (Substitution s = "") then ret None
  else
    let* (_, err) := parseTemplate (Template s) in
    match err with
    | Some x => ret (Some x)
    | None =>
        let* (_, err) := parseTemplate (Substitution s) in
        ret err
    end.

(** The closure [parseHTTPRequestTransforms] of the constructor.  Each of
    its [return err] is followed, at both call sites, by
    [if err != nil { return nil, err }]: an error of the closure is an
    error of the constructor, and the closure is written as failing with
    it. *)
Definition parseHTTPRequestTransforms (t : HTTPRequestTransforms) : M unit :=
  let* (_, err) := parseTemplate (PathTransform t) in
  check err >>
  forM_ (Add (HeaderTransforms t))
    (λ a, let* (_, err) := parseTemplate (anv_Value a) in check err) >>
  forM_ (Add (QueryTransforms t))
    (λ a, let* (_, err) := parseTemplate (anv_Value a) in check err).

(** The first loop of an API: the literal origins and the wildcard flag. *)
Definition corsOrigins (origins : list string) : gmap string bool * bool :=
  fold_left
    (λ '(allowedOrigins, mustVary) o,
       (<[o := true]> allowedOrigins,
        if decide (o = wildcard) then true else mustVary))
    origins (∅, false).

(** [regexp.MustCompile(r)] stored under [r]; a pattern that does not
    compile panics. *)
Definition compileRegExp (r : string) : M unit :=
  match regexp_Compile r with
  | Some re => modify (set_compiledRegExps (λ m, <[r := re]> m))
  | None => panic
  end.

(** The body of the loop over [api.Operations]. *)
Definition buildOperation (api : APISpec) (op : APIOperation) : M unit :=
  (if decide (length (HTTPMatches op) = 0%nat) then
     let split := [api_ID api; wildcard; wildcard] in
     let opMatch := mkOpTemplateMatch op None in
     modify (set_opPathTree (λ t, AddChild t split 0 opMatch))
   else
     forM_ (HTTPMatches op)
       (λ m,
          let split := strings_Split (PathTemplate m) "/"%char in
          let method := Method m in
          let method := if decide (method = anyMethod) then wildcard else method in
          let split := [api_ID api; method] ++ split in
          let* (t, err) := parseTemplate (PathTemplate m) in
          check err >>
          let opMatch := mkOpTemplateMatch op t in
          modify (set_opPathTree (λ tr, AddChild tr split 0 opMatch)))) >>
  forM_ (ca_In (op_ConsumerAuthorization op))
    (λ i, let* err := parseAPIOperationParameter (Transformation i) in check err) >>
  parseHTTPRequestTransforms (op_HTTPRequestTransforms op).

(** The body of the loop over [spec.APIs]. *)
Definition buildAPI (api : APISpec) : M unit :=
  let split := strings_Split (BasePath api) "/"%char in
  let split := ["/"] ++ split in
  modify (set_apiPathTree (λ t, AddChild t split 0 api)) >>
  let '(allowedOrigins, mustVary) := corsOrigins (AllowOrigins (Cors api)) in
  modify (set_corsAllowedOrigins (λ m, <[api_ID api := allowedOrigins]> m)) >>
  forM_ (AllowOriginsRegexes (Cors api)) compileRegExp >>
  modify (set_corsVary (λ m,
    <[api_ID api :=
        mustVary
        || (0 <? length (AllowOriginsRegexes (Cors api)))%nat
        || (1 <? length (AllowOrigins (Cors api)))%nat]> m)) >>
  forM_ (ca_In (api_ConsumerAuthorization api))
    (λ i, let* err := parseAPIOperationParameter (Transformation i) in check err) >>
  parseHTTPRequestTransforms (api_HTTPRequestTransforms api) >>
  forM_ (Operations api) (buildOperation api).

(** The statements of the constructor after the allocation of [ec]. *)
Definition build (spec : EnvironmentSpec) : M unit :=
  forM_ (APIs spec) buildAPI >>
  let* ec := get in
  forM_ (JWTAuthentications ec)
    (λ j,
       forM_ (jwt_In j)
         (λ i, let* err := parseAPIOperationParameter (Transformation i) in
               check err)).

(** [func NewEnvironmentSpecExt]: the extension object, or the first error. *)
Definition NewEnvironmentSpecExt (spec : EnvironmentSpec)
  : outcome EnvironmentSpecExt :=
  let ec := mkEnvironmentSpecExt spec path_NewTree path_NewTree ∅ ∅ ∅ ∅ in
  match build spec ec with
  | Ok (_, ec) => Ok ec
  | Failed err => Failed err
  | Panicked => Panicked
  end.

End Constructor.

(** ** The flattened lists and the template positions *)

(** Modelled from the spec: the validation pass ([ValidateEnvironmentSpecs],
    whose file is not among the sources) collects every JWT leaf
    reachable from a requirement tree into a flattened list, depth first,
    in the order of the traversal of the tree. *)
Fixpoint flattenJWT (a : AuthenticationRequirement) : list JWTAuthentication :=
  match a with
  | mkAuthenticationRequirement _ reqs =>
      match reqs with
      | JWT j => [j]
      | AnyAuthenticationRequirements rs => flat_map flattenJWT rs
      | AllAuthenticationRequirements rs => flat_map flattenJWT rs
      | NoRequirements | OtherRequirements _ => []
      end
  end.

(** Modelled from the spec: what validation ([ValidateEnvironmentSpecs])
    leaves in the unexported field of an operation, the flattened list of
    the operation's own requirement tree. *)
Definition flattenOperation (op : APIOperation) : APIOperation :=
  mkAPIOperation (op_Name op) (HTTPMatches op) (op_Authentication op)
    (op_ConsumerAuthorization op) (op_HTTPRequestTransforms op)
    (flattenJWT (op_Authentication op)).

(** Modelled from the spec: validation of an API, as far as the flattened
    lists go. *)
Definition flattenAPI (api : APISpec) : APISpec :=
  mkAPISpec (api_ID api) (BasePath api) (api_Authentication api)
    (api_ConsumerAuthorization api) (map flattenOperation (Operations api))
    (api_HTTPRequestTransforms api) (Cors api)
    (flattenJWT (api_Authentication api)).

(** Modelled from the spec: validation of a specification, as far as the
    flattened lists go. *)
Definition flattenSpec (spec : EnvironmentSpec) : EnvironmentSpec :=
  mkEnvironmentSpec (ID spec) (map flattenAPI (APIs spec)).

(** The flattened lists of a specification are those of validation. *)
Definition flattened (spec : EnvironmentSpec) : Prop :=
  ∀ api, api ∈ APIs spec →
    api_jwtAuthentications api = flattenJWT (api_Authentication api)
    ∧ ∀ op, op ∈ Operations api →
        op_jwtAuthentications op = flattenJWT (op_Authentication op).

(** The order in which the constructor's accessor returns the flattened
    lists: API by API, the list of the API and then the lists of its
    operations. *)
Definition perAPIOrder (spec : EnvironmentSpec) : list JWTAuthentication :=
  flat_map
    (λ api, api_jwtAuthentications api
            ++ flat_map op_jwtAuthentications (Operations api))
    (APIs spec).

(** The order read off the sentence "every API's flattened list followed
    by every operation's flattened list, across the whole specification":
    the lists of all the APIs, then the lists of all the operations. *)
Definition allAPIsThenAllOperations (spec : EnvironmentSpec)
  : list JWTAuthentication :=
  flat_map api_jwtAuthentications (APIs spec)
  ++ flat_map (λ api, flat_map op_jwtAuthentications (Operations api)) (APIs spec).

(** The raw template strings of a specification, position by position:
    path-match templates, path, header and query transforms, and the
    template and substitution of every parameter binding, those of the
    JWT leaves of the requirement trees included. *)
Definition paramTemplates (p : APIOperationParameter) : list string :=
  [Template (Transformation p); Substitution (Transformation p)].

Definition transformTemplates (t : HTTPRequestTransforms) : list string :=
  PathTransform t
  :: map anv_Value (Add (HeaderTransforms t))
  ++ map anv_Value (Add (QueryTransforms t)).

Definition authTemplates (a : AuthenticationRequirement) : list string :=
  flat_map (λ j, flat_map paramTemplates (jwt_In j)) (flattenJWT a).

Definition operationTemplates (op : APIOperation) : list string :=
  map PathTemplate (HTTPMatches op)
  ++ transformTemplates (op_HTTPRequestTransforms op)
  ++ flat_map paramTemplates (ca_In (op_ConsumerAuthorization op))
  ++ authTemplates (op_Authentication op).

Definition apiTemplates (api : APISpec) : list string :=
  transformTemplates (api_HTTPRequestTransforms api)
  ++ flat_map paramTemplates (ca_In (api_ConsumerAuthorization api))
  ++ authTemplates (api_Authentication api)
  ++ flat_map operationTemplates (Operations api).

Definition templateStrings (spec : EnvironmentSpec) : list string :=
  flat_map apiTemplates (APIs spec).

(** The distinct non-empty strings among them. *)
Definition distinctTemplates (spec : EnvironmentSpec) : list string :=
  remove_dups (filter (λ s, s ≠ "") (templateStrings spec)).

(** ** What a successful construction leaves behind

    The three stores the statements below are about (the template cache,
    the operation tree and the vary flags) are read together, and every
    write to one of them is an event. *)

Section Events.
Context `{Ext : Externals}.

Inductive event : Type :=
  | EvTemplate (templateString : string)
  | EvOperation (path : list string) (opMatch : OpTemplateMatch)
  | EvVary (apiID : string) (vary : bool).

Definition stores : Type :=
  gmap string (option Template_t) * Tree OpTemplateMatch * gmap string bool.

Definition observe (e : EnvironmentSpecExt) : stores :=
  (compiledTemplates e, opPathTree e, corsVary e).

(** What [parseTemplate] returns as its first result. *)
Definition templateOf (templateString : string) : option Template_t :=
  if decide (templateString = "") then None
  else (transform_Parse templateString).1.

Definition cacheTemplate (m : gmap string (option Template_t)) (s : string)
  : gmap string (option Template_t) :=
  if decide (s = "") then m else <[s := (transform_Parse s).1]> m.

Definition apply_event (o : stores) (ev : event) : stores :=
  let '(templates, ops, vary) := o in
  match ev with
  | EvTemplate s => (cacheTemplate templates s, ops, vary)
  | EvOperation path opMatch => (templates, ops ++ [(path, opMatch)], vary)
  | EvVary apiID v => (templates, ops, <[apiID := v]> vary)
  end.

(** A computation that, whenever it returns, has written the events [l]
    in order, left the embedded specification alone, and returns a value
    satisfying [Q]. *)
Definition runs {A} (m : M A) (l : list event) (Q : A → Prop) : Prop :=
  ∀ e a e',
    m e = Ok (a, e') →
    Q a
    ∧ ext_EnvironmentSpec e' = ext_EnvironmentSpec e
    ∧ observe e' = fold_left apply_event l (observe e).

Definition paramEvents (p : APIOperationParameter) : list event :=
  [EvTemplate (Template (Transformation p));
   EvTemplate (Substitution (Transformation p))].

Definition transformsEvents (t : HTTPRequestTransforms) : list event :=
  [EvTemplate (PathTransform t)]
  ++ flat_map (λ a, [EvTemplate (anv_Value a)]) (Add (HeaderTransforms t))
  ++ flat_map (λ a, [EvTemplate (anv_Value a)]) (Add (QueryTransforms t)).

Definition matchEvents (api : APISpec) (op : APIOperation) (m : HTTPMatch)
  : list event :=
  [EvTemplate (PathTemplate m);
   EvOperation
     ([api_ID api; if decide (Method m = anyMethod) then wildcard else Method m]
      ++ strings_Split (PathTemplate m) "/"%char)
     (mkOpTemplateMatch op (templateOf (PathTemplate m)))].

Definition operationEvents (api : APISpec) (op : APIOperation) : list event :=
  (if decide (length (HTTPMatches op) = 0%nat)
   then [EvOperation [api_ID api; wildcard; wildcard] (mkOpTemplateMatch op None)]
   else flat_map (matchEvents api op) (HTTPMatches op))
  ++ flat_map paramEvents (ca_In (op_ConsumerAuthorization op))
  ++ transformsEvents (op_HTTPRequestTransforms op).

Definition varyFlag (c : CorsPolicy) : bool :=
  (corsOrigins (AllowOrigins c)).2
  || (0 <? length (AllowOriginsRegexes c))%nat
  || (1 <? length (AllowOrigins c))%nat.

Definition apiEvents (api : APISpec) : list event :=
  [EvVary (api_ID api) (varyFlag (Cors api))]
  ++ flat_map paramEvents (ca_In (api_ConsumerAuthorization api))
  ++ transformsEvents (api_HTTPRequestTransforms api)
  ++ flat_map (operationEvents api) (Operations api).

Definition jwtEvents (j : JWTAuthentication) : list event :=
  flat_map paramEvents (jwt_In j).

(** What the loop over [api.Operations] adds to the operation tree for one
    operation. *)
Definition operationInsertions (api : APISpec) (op : APIOperation)
  : list (list string * OpTemplateMatch) :=
  if decide (HTTPMatches op = [])
  then [([api_ID api; "*"; "*"], mkOpTemplateMatch op None)]
  else map
         (λ m, ([api_ID api; if decide (Method m = anyMethod) then "*" else Method m]
                ++ strings_Split (PathTemplate m) "/"%char,
                mkOpTemplateMatch op (templateOf (PathTemplate m))))
         (HTTPMatches op).

Definition specEvents (spec : EnvironmentSpec) : list event :=
  flat_map apiEvents (APIs spec) ++ flat_map jwtEvents (perAPIOrder spec).

(** The events of one store. *)
Definition templatesOf : list event → list string :=
  omap (λ ev, match ev with EvTemplate s => Some s | _ => None end).

Definition operationsOf : list event → list (list string * OpTemplateMatch) :=
  omap (λ ev, match ev with EvOperation path m => Some (path, m) | _ => None end).

Definition varyOf : list event → list (string * bool) :=
  omap (λ ev, match ev with EvVary k v => Some (k, v) | _ => None end).

Definition setVary (m : gmap string bool) (kv : string * bool) : gmap string bool :=
  <[kv.1 := kv.2]> m.

End Events.

(** ** The constructor as a sequence of steps

    Every statement of the constructor after the allocation is one of six
    steps; a step that parses a template fails with the error of the
    parser, a step that compiles a regular expression panics when the
    pattern does not compile, and the other four always go through. *)

Section Steps.
Context `{Ext : Externals}.

Inductive step : Type :=
  | StApiPath (path : list string) (api : APISpec)
  | StOrigins (apiID : string) (allowedOrigins : gmap string bool)
  | StRegExp (r : string)
  | StVary (apiID : string) (vary : bool)
  | StTemplate (templateString : string)
  | StOpPath (path : list string) (opMatch : OpTemplateMatch).

Definition execStep (st : step) : M unit :=
  match st with
  | StApiPath path api => modify (set_apiPathTree (λ t, AddChild t path 0 api))
  | StOrigins apiID allowedOrigins =>
      modify (set_corsAllowedOrigins (λ m, <[apiID := allowedOrigins]> m))
  | StRegExp r => compileRegExp r
  | StVary apiID vary => modify (set_corsVary (λ m, <[apiID := vary]> m))
  | StTemplate s => bind (parseTemplate s) (λ '(_, err), check err)
  | StOpPath path opMatch =>
      modify (set_opPathTree (λ t, AddChild t path 0 opMatch))
  end.

(** A step that goes through. *)
Definition stepOk (st : step) : Prop :=
  match st with
  | StRegExp r => regexp_Compile r ≠ None
  | StTemplate s => s ≠ "" → (transform_Parse s).2 = None
  | _ => True
  end.

(** The state a step that goes through leaves. *)
Definition stepEffect (e : EnvironmentSpecExt) (st : step) : EnvironmentSpecExt :=
  match st with
  | StApiPath path api => set_apiPathTree (λ t, AddChild t path 0 api) e
  | StOrigins apiID allowedOrigins =>
      set_corsAllowedOrigins (λ m, <[apiID := allowedOrigins]> m) e
  | StRegExp r =>
      match regexp_Compile r with
      | Some re => set_compiledRegExps (λ m, <[r := re]> m) e
      | None => e
      end
  | StVary apiID vary => set_corsVary (λ m, <[apiID := vary]> m) e
  | StTemplate s =>
      if decide (s = "") then e
      else set_compiledTemplates (λ m, <[s := (transform_Parse s).1]> m) e
  | StOpPath path opMatch => set_opPathTree (λ t, AddChild t path 0 opMatch) e
  end.

Definition paramSteps (p : APIOperationParameter) : list step :=
  [StTemplate (Template (Transformation p));
   StTemplate (Substitution (Transformation p))].

Definition transformsSteps (t : HTTPRequestTransforms) : list step :=
  [StTemplate (PathTransform t)]
  ++ flat_map (λ a, [StTemplate (anv_Value a)]) (Add (HeaderTransforms t))
  ++ flat_map (λ a, [StTemplate (anv_Value a)]) (Add (QueryTransforms t)).

Definition matchSteps (api : APISpec) (op : APIOperation) (m : HTTPMatch)
  : list step :=
  [StTemplate (PathTemplate m);
   StOpPath
     ([api_ID api; if decide (Method m = anyMethod) then wildcard else Method m]
      ++ strings_Split (PathTemplate m) "/"%char)
     (mkOpTemplateMatch op (templateOf (PathTemplate m)))].

Definition operationSteps (api : APISpec) (op : APIOperation) : list step :=
  (if decide (length (HTTPMatches op) = 0%nat)
   then [StOpPath [api_ID api; wildcard; wildcard] (mkOpTemplateMatch op None)]
   else flat_map (matchSteps api op) (HTTPMatches op))
  ++ flat_map paramSteps (ca_In (op_ConsumerAuthorization op))
  ++ transformsSteps (op_HTTPRequestTransforms op).

Definition apiSteps (api : APISpec) : list step :=
  [StApiPath (["/"] ++ strings_Split (BasePath api) "/"%char) api;
   StOrigins (api_ID api) (corsOrigins (AllowOrigins (Cors api))).1]
  ++ flat_map (λ r, [StRegExp r]) (AllowOriginsRegexes (Cors api))
  ++ [StVary (api_ID api) (varyFlag (Cors api))]
  ++ flat_map paramSteps (ca_In (api_ConsumerAuthorization api))
  ++ transformsSteps (api_HTTPRequestTransforms api)
  ++ flat_map (operationSteps api) (Operations api).

Definition specSteps (spec : EnvironmentSpec) : list step :=
  flat_map apiSteps (APIs spec)
  ++ flat_map (λ j, flat_map paramSteps (jwt_In j)) (perAPIOrder spec).

(** A computation that does what a sequence of steps does, whatever the
    outcome. *)
Definition performs (m : M unit) (l : list step) : Prop :=
  ∀ e, m e = forM_ l execStep e.

(** The steps of one kind. *)
Definition stepTemplates : list step → list string :=
  omap (λ st, match st with StTemplate s => Some s | _ => None end).

Definition stepRegExps : list step → list string :=
  omap (λ st, match st with StRegExp r => Some r | _ => None end).

Definition stepApiPaths : list step → list (list string * APISpec) :=
  omap (λ st, match st with StApiPath p api => Some (p, api) | _ => None end).

Definition stepOrigins : list step → list (string * gmap string bool) :=
  omap (λ st, match st with StOrigins k m => Some (k, m) | _ => None end).

Definition cacheRegExp (m : gmap string Regexp) (r : string) : gmap string Regexp :=
  match regexp_Compile r with
  | Some re => <[r := re]> m
  | None => m
  end.

Definition setOrigins (m : gmap string (gmap string bool))
    (kv : string * gmap string bool) : gmap string (gmap string bool) :=
  <[kv.1 := kv.2]> m.

(** Every regular expression of the specification, in the order of the
    APIs. *)
Definition regExpStrings (spec : EnvironmentSpec) : list string :=
  flat_map (λ api, AllowOriginsRegexes (Cors api)) (APIs spec).

End Steps.

(** ** The textual form of a requirement

    The encoder and the decoder of [AuthenticationRequirement] live next to
    the specification types, in a file that is not among the sources; the
    tests of the package exercise them through [yaml.Marshal] and
    [yaml.Unmarshal].  The textual form is read here as the tree of keyed
    records the YAML text denotes: a key is present or absent, a list key
    holds a list of records. *)

Inductive codecError : Type :=
  | ErrMessage (msg : string)
  | ErrUnsupportedRequirement.

Inductive result (A : Type) : Type :=
  | Success (a : A)
  | Failure (err : codecError).
Arguments Success {A} a.
Arguments Failure {A} err.

Definition andThen {A B} (r : result A) (k : A → result B) : result B :=
  match r with
  | Success a => k a
  | Failure err => Failure err
  end.

Definition traverse {A B} (f : A → result B) : list A → result (list B) :=
  fix go (l : list A) : result (list B) :=
    match l with
    | [] => Success []
    | x :: l' =>
        andThen (f x) (λ y, andThen (go l') (λ ys, Success (y :: ys)))
    end.

Definition traverseOption {A B} (f : A → result B) (o : option A)
  : result (option B) :=
  match o with
  | None => Success None
  | Some x => andThen (f x) (λ y, Success (Some y))
  end.

(** Modelled from the spec: the textual form itself, by its keys.  The keys
    of a parameter binding ([header], [query], [jwt_claim],
    [transformation]), of a JWT requirement ([name], [issuer], [audiences],
    [remote_jwks], [in]) and of a requirement ([disabled], [jwt], [any],
    [all]), as the YAML texts of the tests show them. *)
Record paramRecord : Type := mkParamRecord {
  key_header : option string;
  key_query : option string;
  key_jwt_claim : option (string * string);
  key_transformation : StringTransformation
}.

Record jwtRecord : Type := mkJwtRecord {
  key_name : string;
  key_issuer : string;
  key_audiences : list string;
  key_remote_jwks : option (string * Z);
  key_in : list paramRecord
}.

Inductive authRecord : Type :=
  | mkAuthRecord (key_disabled : bool) (key_jwt : option jwtRecord)
      (key_any : option (list authRecord)) (key_all : option (list authRecord)).

(** The record of a requirement once the values under its keys are
    decoded. *)
Record authWrapper : Type := mkAuthWrapper {
  w_Disabled : bool;
  w_JWT : option JWTAuthentication;
  w_Any : option (list AuthenticationRequirement);
  w_All : option (list AuthenticationRequirement)
}.

Definition present {A} (o : option A) : nat :=
  match o with Some _ => 1 | None => 0 end.

Definition keysPresent (w : authWrapper) : nat :=
  present (w_JWT w) + present (w_Any w) + present (w_All w).

(** Modelled from the spec: the decoder of a requirement is not in the
    sources.  The decoded record must carry precisely one of
    the three keyed alternatives; zero or more than one is the error
    "precisely one of jwt, any or all should be set", except when the
    [disabled] flag is set, in which case the check is skipped.  The spec
    does not say which alternative a disabled record with several keys
    keeps; the keys are taken in the order of the message, a later one
    replacing an earlier one. *)
Definition decodeWrapper (w : authWrapper) : result AuthenticationRequirement :=
  let reqs := NoRequirements in
  let reqs := match w_JWT w with Some j => JWT j | None => reqs end in
  let reqs :=
    match w_Any w with Some rs => AnyAuthenticationRequirements rs | None => reqs end in
  let reqs :=
    match w_All w with Some rs => AllAuthenticationRequirements rs | None => reqs end in
  if negb (keysPresent w =? 1)%nat && negb (w_Disabled w)
  then Failure (ErrMessage "precisely one of jwt, any or all should be set")
  else Success (mkAuthenticationRequirement (w_Disabled w) reqs).

(** Modelled from the spec: the decoder of a parameter binding is not in
    the sources; a binding has precisely one of its three match keys, and
    [TestUnmarshalAPIOperationParameterError] gives the message. *)
Definition digit (n : nat) : string :=
  match n with
  | 0 => "0" | 1 => "1" | 2 => "2" | _ => "3"
  end%nat.

Definition decodeParam (r : paramRecord) : result APIOperationParameter :=
  let ctr := (present (key_header r) + present (key_query r)
              + present (key_jwt_claim r))%nat in
  match key_header r, key_query r, key_jwt_claim r with
  | Some h, None, None =>
      Success (mkAPIOperationParameter (Header h) (key_transformation r))
  | None, Some q, None =>
      Success (mkAPIOperationParameter (Query q) (key_transformation r))
  | None, None, Some (requirement, name) =>
      Success (mkAPIOperationParameter (JWTClaim requirement name)
                 (key_transformation r))
  | _, _, _ =>
      Failure (ErrMessage
        ("precisely one header, query or jwt_claim should be set, got "
         +:+ digit ctr))
  end.

(** Modelled from the spec: the decoder of a JWT requirement is not in the
    sources; "remote" is the only JWKS source, and a record without the
    [remote_jwks] key is the error "remote jwks not found" of
    [TestUnmarshalJWTAuthenticationError]. *)
Definition decodeJWT (r : jwtRecord) : result JWTAuthentication :=
  andThen (traverse decodeParam (key_in r)) (λ params,
  match key_remote_jwks r with
  | Some (url, cacheDuration) =>
      Success (mkJWTAuthentication (key_name r) (key_issuer r) (key_audiences r)
                 (RemoteJWKS url cacheDuration) params)
  | None => Failure (ErrMessage "remote jwks not found")
  end).

(** Modelled from the spec: the decoder of a requirement is not in the
    sources; it decodes the values under the keys, the children of an
    any-list or all-list by the same decoder, and then applies the rule of
    [decodeWrapper]. *)
Fixpoint decodeAuth (r : authRecord) : result AuthenticationRequirement :=
  match r with
  | mkAuthRecord d j any all =>
      andThen (traverseOption decodeJWT j) (λ j',
      andThen (traverseOption (traverse decodeAuth) any) (λ any',
      andThen (traverseOption (traverse decodeAuth) all) (λ all',
      decodeWrapper (mkAuthWrapper d j' any' all'))))
  end.

(** Modelled from the spec: the encoders are not in the sources; encoding
    rejects an unsupported variant rather than dropping it, with the
    message of [TestMarshalAPIOperationParameterError] for a match. *)
Definition encodeParam (p : APIOperationParameter) : result paramRecord :=
  match Match p with
  | Header h => Success (mkParamRecord (Some h) None None (Transformation p))
  | Query q => Success (mkParamRecord None (Some q) None (Transformation p))
  | JWTClaim requirement name =>
      Success (mkParamRecord None None (Some (requirement, name)) (Transformation p))
  | OtherMatch _ | NoMatch => Failure (ErrMessage "unsupported match type")
  end.

(** Modelled from the spec: encoding rejects an unsupported JWKS-source
    variant, with the message of [TestMarshalJWTAuthenticationError]. *)
Definition encodeJWT (j : JWTAuthentication) : result jwtRecord :=
  andThen (traverse encodeParam (jwt_In j)) (λ params,
  match jwt_JWKSSource j with
  | RemoteJWKS url cacheDuration =>
      Success (mkJwtRecord (jwt_Name j) (jwt_Issuer j) (jwt_Audiences j)
                 (Some (url, cacheDuration)) params)
  | OtherJWKS _ | NoJWKS => Failure (ErrMessage "unsupported jwks source")
  end).

(** Modelled from the spec: encoding a requirement writes the [disabled]
    flag and the one key of its variant, the children of an any-of or
    all-of node by the same encoder, and rejects an unrecognized variant;
    the text of that error is not given. *)
Fixpoint encodeAuth (a : AuthenticationRequirement) : result authRecord :=
  match a with
  | mkAuthenticationRequirement d reqs =>
      match reqs with
      | JWT j =>
          andThen (encodeJWT j) (λ r, Success (mkAuthRecord d (Some r) None None))
      | AnyAuthenticationRequirements rs =>
          andThen (traverse encodeAuth rs) (λ rs',
          Success (mkAuthRecord d None (Some rs') None))
      | AllAuthenticationRequirements rs =>
          andThen (traverse encodeAuth rs) (λ rs',
          Success (mkAuthRecord d None None (Some rs')))
      | NoRequirements | OtherRequirements _ => Failure ErrUnsupportedRequirement
      end
  end.

(** A requirement that can be written down: every node holds one of the
    three variants, every JWT leaf has a remote JWKS source and bindings
    with a header, query or claim match. *)
Definition validParam (p : APIOperationParameter) : bool :=
  match Match p with
  | Header _ | Query _ | JWTClaim _ _ => true
  | OtherMatch _ | NoMatch => false
  end.

Definition validJWT (j : JWTAuthentication) : bool :=
  match jwt_JWKSSource j with
  | RemoteJWKS _ _ => forallb validParam (jwt_In j)
  | OtherJWKS _ | NoJWKS => false
  end.

Fixpoint validAuth (a : AuthenticationRequirement) : bool :=
  match a with
  | mkAuthenticationRequirement _ reqs =>
      match reqs with
      | JWT j => validJWT j
      | AnyAuthenticationRequirements rs => forallb validAuth rs
      | AllAuthenticationRequirements rs => forallb validAuth rs
      | NoRequirements | OtherRequirements _ => false
      end
  end.

(** ** Test data *)

Definition req (r : AuthenticationRequirements) : AuthenticationRequirement :=
  mkAuthenticationRequirement false r.

Definition emptyJWT : JWTAuthentication :=
  mkJWTAuthentication "" "" [] NoJWKS [].

(** An instance of what is taken from outside: templates and regular
    expressions that always compile, to themselves. *)
Definition testExternals : Externals := {|
  Template_t := string;
  error := string;
  Regexp := string;
  transform_Parse := λ s, (Some s, None);
  regexp_Compile := λ r, Some r;
  anyMethod := "ANY"
|}.

Definition noTransformation : StringTransformation := mkStringTransformation "" "".

Definition inHeader (h : string) : APIOperationParameter :=
  mkAPIOperationParameter (Header h) noTransformation.

Definition inQuery (q : string) : APIOperationParameter :=
  mkAPIOperationParameter (Query q) noTransformation.

Definition noTransforms : HTTPRequestTransforms :=
  mkHTTPRequestTransforms (mkNameValueTransforms [] []) (mkNameValueTransforms [] []) "".

Definition noAuthorization : ConsumerAuthorization := mkConsumerAuthorization false [].

Definition noAuthentication : AuthenticationRequirement :=
  mkAuthenticationRequirement false NoRequirements.

Definition hour : Z := 3600000000000.

Definition testJWT (name issuer url : string) (audiences : list string)
    (params : list APIOperationParameter) : JWTAuthentication :=
  mkJWTAuthentication name issuer audiences (RemoteJWKS url hour) params.

(** The first API of [createGoodEnvSpec]. *)
Definition apispec1 : APISpec :=
  mkAPISpec "apispec1" "/v1"
    (req (AnyAuthenticationRequirements
       [req (AllAuthenticationRequirements
          [req (JWT (testJWT "foo" "issuer" "url" []
             [mkAPIOperationParameter (Header "jwt")
                (mkStringTransformation "{identity}" "{identity}")]))])]))
    (mkConsumerAuthorization false [inQuery "x-api-key"; inHeader "x-api-key"])
    [ mkAPIOperation "op-1" [mkHTTPMatch "/petstore" "GET"]
        noAuthentication noAuthorization noTransforms [];
      mkAPIOperation "op-2" [mkHTTPMatch "/bookshop" "POST"]
        noAuthentication noAuthorization noTransforms [];
      mkAPIOperation "op-3" [mkHTTPMatch "/airport" "GET"]
        (req (JWT (testJWT "foo" "issuer" "url" ["foo"; "bac"] [inHeader "jwt"])))
        noAuthorization noTransforms [];
      mkAPIOperation "op-4" [mkHTTPMatch "/noauthz" "GET"]
        noAuthentication (mkConsumerAuthorization true []) noTransforms [] ]
    (mkHTTPRequestTransforms
       (mkNameValueTransforms [mkAddNameValue "x-apigee-target" "target" false] [])
       (mkNameValueTransforms [] [])
       "/target_prefix/{path}")
    (mkCorsPolicy ["*"] [])
    [].

(** The specification of [createGoodEnvSpec], before validation. *)
Definition goodEnvSpecSource : EnvironmentSpec :=
  mkEnvironmentSpec "good-env-config"
    [ apispec1;
      mkAPISpec "apispec2" "/v2"
        (req (JWT (testJWT "foo" "issuer-0" "url" []
           [inHeader "jwt"; inHeader "x-custom-auth-token"])))
        noAuthorization
        [ mkAPIOperation "op-3" [mkHTTPMatch "/petstore" "ANY"]
            (req (JWT (testJWT "foo" "issuer" "url" [] [inHeader "jwt"])))
            (mkConsumerAuthorization false
               [inQuery "x-api-key2"; inHeader "x-api-key2";
                mkAPIOperationParameter (Header "authorization")
                  (mkStringTransformation "Bearer {token}" "{token}")])
            noTransforms [];
          mkAPIOperation "op-4" [mkHTTPMatch "/petstore/pets" "GET"]
            (req (AllAuthenticationRequirements
               [req (JWT (testJWT "foo" "issuer2" "url2" [] [inHeader "jwt"]));
                req (JWT (testJWT "bar" "issuer2" "url2" [] [inHeader "jwt"]))]))
            noAuthorization noTransforms [] ]
        noTransforms (mkCorsPolicy [] []) [];
      mkAPISpec "no-operations-api" "/v3"
        (req (JWT (testJWT "foo" "issuer" "url" [] [inHeader "jwt"])))
        (mkConsumerAuthorization false [inQuery "x-api-key"; inHeader "x-api-key"])
        [] noTransforms (mkCorsPolicy [] []) [];
      mkAPISpec "empty-operation" "/v4/*"
        (req (JWT (testJWT "foo" "issuer" "url" [] [inHeader "jwt"])))
        (mkConsumerAuthorization false [inQuery "x-api-key"; inHeader "x-api-key"])
        [ mkAPIOperation "empty" [] noAuthentication noAuthorization noTransforms [] ]
        noTransforms (mkCorsPolicy [] []) [] ].

(** [createGoodEnvSpec] calls [ValidateEnvironmentSpecs] before it returns
    the specification. *)
Definition createGoodEnvSpec : EnvironmentSpec := flattenSpec goodEnvSpecSource.

Definition goodEnvSpecExt : EnvironmentSpecExt (Ext := testExternals) :=
  match NewEnvironmentSpecExt (Ext := testExternals) createGoodEnvSpec with
  | Ok ec => ec
  | _ => mkEnvironmentSpecExt createGoodEnvSpec [] [] ∅ ∅ ∅ ∅
  end.

(** Two APIs, the first with an operation that has a requirement of its
    own. *)
Definition jwtA : JWTAuthentication := testJWT "a" "issuer" "url" [] [inHeader "jwt"].
Definition jwtB : JWTAuthentication := testJWT "b" "issuer" "url" [] [inHeader "jwt"].
Definition jwtC : JWTAuthentication := testJWT "c" "issuer" "url" [] [inHeader "jwt"].

Definition twoAPIsSpec : EnvironmentSpec :=
  flattenSpec
    (mkEnvironmentSpec "spec"
       [ mkAPISpec "api-1" "/v1" (req (JWT jwtA)) noAuthorization
           [ mkAPIOperation "op" [] (req (JWT jwtB)) noAuthorization noTransforms [] ]
           noTransforms (mkCorsPolicy [] []) [];
         mkAPISpec "api-2" "/v2" (req (JWT jwtC)) noAuthorization []
           noTransforms (mkCorsPolicy [] []) [] ]).

Definition twoAPIsExt : EnvironmentSpecExt (Ext := testExternals) :=
  mkEnvironmentSpecExt twoAPIsSpec [] [] ∅ ∅ ∅ ∅.

(** The records of [TestUnmarshalAuthenticationRequirementError]. *)
Definition headerRecord (h : string) : paramRecord :=
  mkParamRecord (Some h) None None noTransformation.

Definition queryRecord (q : string) : paramRecord :=
  mkParamRecord None (Some q) None noTransformation.

Definition fooRecord : authRecord :=
  mkAuthRecord false
    (Some (mkJwtRecord "foo" "bar" [] (Some ("url1", hour)) [headerRecord "header"]))
    None None.

Definition barJwtRecord : jwtRecord :=
  mkJwtRecord "bar" "foo" [] (Some ("url2", hour)) [queryRecord "query"].

Definition anyAndJwtCoexist : authRecord :=
  mkAuthRecord false (Some barJwtRecord) (Some [fooRecord]) None.

Definition allAndJwtCoexist : authRecord :=
  mkAuthRecord false (Some barJwtRecord) None (Some [fooRecord]).

Definition allAndAnyCoexist : authRecord :=
  mkAuthRecord false None (Some [fooRecord]) (Some [fooRecord]).

Definition disabledAllAndAny : authRecord :=
  mkAuthRecord true None (Some [fooRecord]) (Some [fooRecord]).

(** The last value of [TestMarshalAndUnmarshalAuthenticationRequirement]. *)
Definition anyEnclosingAllAndJwt : AuthenticationRequirement :=
  mkAuthenticationRequirement true
    (AnyAuthenticationRequirements
       [ req (AllAuthenticationRequirements
           [ mkAuthenticationRequirement true
               (JWT (testJWT "foo" "bar" "url1" [] [inHeader "header"]));
             req (JWT (testJWT "bar" "foo" "url2" [] [inQuery "query"])) ]);
         req (JWT (mkJWTAuthentication "bac" "foo" [] (RemoteJWKS "url3" (2 * hour))
                     [inQuery "query"])) ]).

Definition disabledTwoKeys : authWrapper :=
  mkAuthWrapper true None (Some [req (JWT jwtA)]) (Some [req (JWT jwtB)]).

(** An instance in which a template and a pattern are refused: the
    template ["{bad"], and the pattern ["*"]. *)
Definition strictExternals : Externals := {|
  Template_t := string;
  error := string;
  Regexp := string;
  transform_Parse := λ s,
    if decide (s = "{bad") then (None, Some "unbalanced braces") else (Some s, None);
  regexp_Compile := λ r, if decide (r = "*") then None else Some r;
  anyMethod := "ANY"
|}.

(** One API whose path transform is refused, and one whose origin pattern
    is refused while its path transform is refused too. *)
Definition badTemplateSpec : EnvironmentSpec :=
  mkEnvironmentSpec "spec"
    [ mkAPISpec "api" "/v1" noAuthentication noAuthorization []
        (mkHTTPRequestTransforms (mkNameValueTransforms [] [])
           (mkNameValueTransforms [] []) "{bad")
        (mkCorsPolicy [] []) [] ].

Definition badRegExpSpec : EnvironmentSpec :=
  mkEnvironmentSpec "spec"
    [ mkAPISpec "api" "/v1" noAuthentication noAuthorization []
        (mkHTTPRequestTransforms (mkNameValueTransforms [] [])
           (mkNameValueTransforms [] []) "{bad")
        (mkCorsPolicy [] ["https://.*"; "*"]) [] ].

(** Two specifications with the same template strings, once and twice. *)
Definition onceSpec : EnvironmentSpec :=
  mkEnvironmentSpec "once"
    [ mkAPISpec "api" "/v1" noAuthentication noAuthorization []
        (mkHTTPRequestTransforms (mkNameValueTransforms [] [])
           (mkNameValueTransforms [] []) "/target/{path}")
        (mkCorsPolicy [] []) [] ].

Definition twiceAPI : APISpec :=
  mkAPISpec "api" "/v1" noAuthentication noAuthorization []
    (mkHTTPRequestTransforms
       (mkNameValueTransforms [mkAddNameValue "x" "/target/{path}" false] [])
       (mkNameValueTransforms [] []) "/target/{path}")
    (mkCorsPolicy ["https://a"; "https://b"] ["https://.*"]) [].

Definition twiceSpec : EnvironmentSpec := mkEnvironmentSpec "twice" [twiceAPI].

Definition onceSpecExt : EnvironmentSpecExt (Ext := testExternals) :=
  match NewEnvironmentSpecExt (Ext := testExternals) onceSpec with
  | Ok ec => ec
  | _ => mkEnvironmentSpecExt onceSpec [] [] ∅ ∅ ∅ ∅
  end.

Definition twiceSpecExt : EnvironmentSpecExt (Ext := testExternals) :=
  match NewEnvironmentSpecExt (Ext := testExternals) twiceSpec with
  | Ok ec => ec
  | _ => mkEnvironmentSpecExt twiceSpec [] [] ∅ ∅ ∅ ∅
  end.

(** A path transform of a space and a tab. *)
Definition blankTransforms : HTTPRequestTransforms :=
  mkHTTPRequestTransforms (mkNameValueTransforms [] []) (mkNameValueTransforms [] [])
    (String " " (String (ascii_of_nat 9) "")).

(** An API with one literal origin. *)
Definition singleOriginAPI : APISpec :=
  mkAPISpec "api" "/v1" noAuthentication noAuthorization [] noTransforms
    (mkCorsPolicy ["https://a"] []) [].

Definition singleOriginSpec : EnvironmentSpec :=
  mkEnvironmentSpec "single" [singleOriginAPI].

Definition singleOriginExt : EnvironmentSpecExt (Ext := testExternals) :=
  match NewEnvironmentSpecExt (Ext := testExternals) singleOriginSpec with
  | Ok ec => ec
  | _ => mkEnvironmentSpecExt singleOriginSpec [] [] ∅ ∅ ∅ ∅
  end.

(** * Properties *)

(** The test table of [TestAuthorizationRequirementIsEmpty]. *)
Example test_just_jwt : IsEmpty (req (JWT emptyJWT)) = false.
Proof. reflexivity. Qed.

Example test_empty_any : IsEmpty (req (AnyAuthenticationRequirements [])) = true.
Proof. reflexivity. Qed.

Example test_empty_all : IsEmpty (req (AllAuthenticationRequirements [])) = true.
Proof. reflexivity. Qed.

Example test_jwt_in_all :
  IsEmpty (req (AllAuthenticationRequirements [req (JWT emptyJWT)])) = false.
Proof. reflexivity. Qed.

Example test_nested_empty :
  IsEmpty (req (AnyAuthenticationRequirements
    [req (AllAuthenticationRequirements
       [req (AnyAuthenticationRequirements [])])])) = true.
Proof. reflexivity. Qed.

Example test_nested_jwt :
  IsEmpty (req (AllAuthenticationRequirements
    [req (AnyAuthenticationRequirements
       [req NoRequirements; req (JWT emptyJWT)])])) = false.
Proof. reflexivity. Qed.

(** ** Properties of emptiness *)

Lemma isEmpty_any d rs :
  isEmpty (mkAuthenticationRequirement d (AnyAuthenticationRequirements rs))
  = childrenEmpty rs.
Proof. simpl. induction rs as [|r rs IH]; simpl; [done|]. by rewrite IH. Qed.

Lemma isEmpty_all d rs :
  isEmpty (mkAuthenticationRequirement d (AllAuthenticationRequirements rs))
  = childrenEmpty rs.
Proof. simpl. induction rs as [|r rs IH]; simpl; [done|]. by rewrite IH. Qed.

Lemma childrenEmpty_Forall rs :
  childrenEmpty rs = true ↔ Forall (λ r, isEmpty r = true) rs.
Proof.
  induction rs as [|r rs IH]; simpl.
  - split; [constructor | done].
  - rewrite Forall_cons, <- IH.
    destruct (isEmpty r); simpl; intuition congruence.
Qed.

Lemma childrenEmpty_false rs r :
  r ∈ rs → isEmpty r = false → childrenEmpty rs = false.
Proof.
  intros Hin Hr. destruct (childrenEmpty rs) eqn:E; [|done].
  apply childrenEmpty_Forall in E. rewrite Forall_forall in E.
  specialize (E r Hin). congruence.
Qed.

Lemma containsJWT_not_empty a : containsJWT a → isEmpty a = false.
Proof.
  induction 1 as [d j | d rs r Hin _ IH | d rs r Hin _ IH].
  - reflexivity.
  - rewrite isEmpty_any. by apply childrenEmpty_false with r.
  - rewrite isEmpty_all. by apply childrenEmpty_false with r.
Qed.

(** C9: [ConsumerAuthorization.isEmpty] is true exactly when the
    authorization is not disabled and its [In] list has no binding; a
    disabled authorization is never empty. *)
Theorem ConsumerAuthorization_isEmpty_iff :
  ∀ c : ConsumerAuthorization,
    (ConsumerAuthorization_isEmpty c = true
       ↔ ca_Disabled c = false ∧ ca_In c = [])
    ∧ (ca_Disabled c = true → ConsumerAuthorization_isEmpty c = false).
Proof.
  intros [d l]; unfold ConsumerAuthorization_isEmpty; simpl. split.
  - destruct d, l; simpl; intuition congruence.
  - by intros ->.
Qed.

Lemma ConsumerAuthorization_isEmpty_iff_witness :
  ConsumerAuthorization_isEmpty (mkConsumerAuthorization true []) = false.
Proof.
  apply (ConsumerAuthorization_isEmpty_iff (mkConsumerAuthorization true [])).
  reflexivity.
Defined.

(** C3: [IsEmpty] is true exactly when the node is not disabled and its
    recursive content is empty; on a disabled node it is false whatever
    the content. *)
Theorem AuthenticationRequirement_IsEmpty_iff :
  ∀ a : AuthenticationRequirement,
    (IsEmpty a = true ↔ Disabled a = false ∧ isEmpty a = true)
    ∧ (Disabled a = true → IsEmpty a = false).
Proof.
  intros a. unfold IsEmpty. split.
  - destruct (Disabled a), (isEmpty a); simpl; intuition congruence.
  - by intros ->.
Qed.

Lemma AuthenticationRequirement_IsEmpty_iff_witness :
  IsEmpty (mkAuthenticationRequirement true (AnyAuthenticationRequirements []))
  = false.
Proof.
  apply (AuthenticationRequirement_IsEmpty_iff
           (mkAuthenticationRequirement true (AnyAuthenticationRequirements []))).
  reflexivity.
Defined.

(** C4: the recursive helper [isEmpty] is false on a JWT leaf, and on an
    any-of or all-of node it is true exactly when every child is empty;
    so a node with no child is empty and a tree with a JWT leaf at any
    depth is not. *)
Theorem isEmpty_children :
  (∀ d j, isEmpty (mkAuthenticationRequirement d (JWT j)) = false)
  ∧ (∀ d rs,
       isEmpty (mkAuthenticationRequirement d (AnyAuthenticationRequirements rs)) = true
       ↔ Forall (λ r, isEmpty r = true) rs)
  ∧ (∀ d rs,
       isEmpty (mkAuthenticationRequirement d (AllAuthenticationRequirements rs)) = true
       ↔ Forall (λ r, isEmpty r = true) rs)
  ∧ (∀ d,
       isEmpty (mkAuthenticationRequirement d (AnyAuthenticationRequirements [])) = true
       ∧ isEmpty (mkAuthenticationRequirement d (AllAuthenticationRequirements [])) = true)
  ∧ (∀ a, containsJWT a → isEmpty a = false).
Proof.
  split; [done|]. split; [|split; [|split]].
  - intros d rs. rewrite isEmpty_any. apply childrenEmpty_Forall.
  - intros d rs. rewrite isEmpty_all. apply childrenEmpty_Forall.
  - done.
  - apply containsJWT_not_empty.
Qed.

Lemma isEmpty_children_witness :
  isEmpty (req (AllAuthenticationRequirements
    [req (AnyAuthenticationRequirements
       [req NoRequirements; req (JWT emptyJWT)])])) = false.
Proof.
  apply (proj2 (proj2 (proj2 (proj2 isEmpty_children)))).
  eapply containsJWT_all; [apply list_elem_of_here|].
  eapply containsJWT_any; [apply list_elem_of_further, list_elem_of_here|].
  apply containsJWT_leaf.
Defined.

(** C10: when the [Requirements] field holds none of the three known
    variants (it is nil, or another implementer of the interface), the
    type switch of [isEmpty] matches no case and the function returns
    true; [IsEmpty] is then the negation of the [Disabled] flag. *)
Theorem isEmpty_unknown_variant :
  ∀ a : AuthenticationRequirement,
    (∀ j, Requirements a ≠ JWT j) →
    (∀ rs, Requirements a ≠ AnyAuthenticationRequirements rs) →
    (∀ rs, Requirements a ≠ AllAuthenticationRequirements rs) →
    isEmpty a = true ∧ IsEmpty a = negb (Disabled a).
Proof.
  intros [d r] Hj Hany Hall; simpl in *. unfold IsEmpty; simpl.
  destruct r as [|j|rs|rs|tag]; simpl.
  - by rewrite andb_true_r.
  - by destruct (Hj j).
  - by destruct (Hany rs).
  - by destruct (Hall rs).
  - by rewrite andb_true_r.
Qed.

Lemma isEmpty_unknown_variant_witness :
  isEmpty (mkAuthenticationRequirement true NoRequirements) = true
  ∧ IsEmpty (mkAuthenticationRequirement true NoRequirements) = negb true.
Proof.
  apply (isEmpty_unknown_variant (mkAuthenticationRequirement true NoRequirements));
    simpl; intros; discriminate.
Defined.

(** ** The constructor, event by event *)

Section Runs.
Context `{Ext : Externals}.

Lemma runs_ret {A} (a : A) : runs (ret a) [] (λ x, x = a).
Proof. intros e b e' [= <- <-]. done. Qed.

Lemma runs_weaken {A} (m : M A) l l' (Q R : A → Prop) :
  runs m l Q → l = l' → (∀ a, Q a → R a) → runs m l' R.
Proof. intros Hm <- HQR e a e' Hrun. destruct (Hm e a e' Hrun) as (?&?&?). auto. Qed.

Lemma runs_bind {A B} (m : M A) (k : A → M B) l1 l2 (Q : A → Prop) (R : B → Prop) :
  runs m l1 Q → (∀ a, Q a → runs (k a) l2 R) → runs (bind m k) (l1 ++ l2) R.
Proof.
  intros Hm Hk e b e'. unfold bind.
  destruct (m e) as [[a e1]| |] eqn:Em; [|done..].
  intros Hrun. destruct (Hm e a e1 Em) as (Ha & Hs1 & Ho1).
  destruct (Hk a Ha e1 b e' Hrun) as (Hb & Hs2 & Ho2).
  split; [done|]. split; [congruence|].
  by rewrite fold_left_app, <- Ho1.
Qed.

Lemma runs_forM {A} (xs : list A) (body : A → M unit) (g : A → list event) :
  (∀ x, x ∈ xs → runs (body x) (g x) (λ _, True)) →
  runs (forM_ xs body) (flat_map g xs) (λ _, True).
Proof.
  induction xs as [|x xs IH]; intros Hbody; simpl.
  - eapply runs_weaken; [apply runs_ret|done..].
  - eapply runs_bind.
    + apply Hbody. left.
    + intros _ _. apply IH. intros y Hy. apply Hbody. by right.
Qed.

Lemma runs_check (err : option error) : runs (check err) [] (λ _, err = None).
Proof. intros e a e'. unfold check. destruct err; [done|]. by intros [= <- <-]. Qed.

Lemma runs_panic {A} l (Q : A → Prop) : runs (@panic _ A) l Q.
Proof. by intros e a e'. Qed.

Lemma runs_modify (f : EnvironmentSpecExt → EnvironmentSpecExt) l :
  (∀ e, ext_EnvironmentSpec (f e) = ext_EnvironmentSpec e
        ∧ observe (f e) = fold_left apply_event l (observe e)) →
  runs (modify f) l (λ _, True).
Proof. intros Hf e a e' [= <- <-]. destruct (Hf e). done. Qed.

Lemma runs_parseTemplate (s : string) :
  runs (parseTemplate s) [EvTemplate s] (λ r, r.1 = templateOf s).
Proof.
  unfold parseTemplate, templateOf. intros e a e'.
  destruct (decide (s = "")) as [->|Hs].
  - intros [= <- <-]. done.
  - destruct (transform_Parse s) as [t err] eqn:Et. unfold bind, modify, ret.
    intros [= <- <-]. simpl. unfold cacheTemplate.
    rewrite decide_False by done. by rewrite Et.
Qed.

Lemma runs_parseTemplate_check (s : string) :
  runs (bind (parseTemplate s) (λ '(_, err), check err)) [EvTemplate s] (λ _, True).
Proof.
  apply (runs_bind _ _ [EvTemplate s] [] _ _ (runs_parseTemplate s)).
  intros [t err] _. eapply runs_weaken; [apply runs_check|done..].
Qed.

Lemma runs_parameter (p : APIOperationParameter) :
  runs (bind (parseAPIOperationParameter (Transformation p)) check)
    (paramEvents p) (λ _, True).
Proof.
  unfold parseAPIOperationParameter, paramEvents.
  destruct (Transformation p) as [t s]; simpl.
  destruct (bool_decide (t = "") && bool_decide (s = "")) eqn:Eb.
  - apply andb_true_iff in Eb as [Ht Hs].
    apply bool_decide_eq_true in Ht as ->. apply bool_decide_eq_true in Hs as ->.
    intros e a e' [= <- <-]. done.
  - intros e a e'. unfold bind.
    destruct (parseTemplate t e) as [[[t1 err1] e1]| |] eqn:E1; [|done..].
    destruct (runs_parseTemplate t e _ e1 E1) as (_ & Hs1 & Ho1).
    destruct err1 as [x|]; [done|].
    destruct (parseTemplate s e1) as [[[t2 err2] e2]| |] eqn:E2; [|done..].
    destruct (runs_parseTemplate s e1 _ e2 E2) as (_ & Hs2 & Ho2).
    unfold ret, check. destruct err2; [done|]. intros [= <- <-].
    split; [done|]. split; [congruence|]. simpl. by rewrite Ho2, Ho1.
Qed.

Lemma flat_map_singleton {A B} (f : A → B) (l : list A) :
  flat_map (λ x, [f x]) l = map f l.
Proof. induction l as [|x l IH]; simpl; [done|]. by rewrite IH. Qed.

Lemma flat_map_nil {A B} (l : list A) : flat_map (λ _, @nil B) l = [].
Proof. induction l as [|x l IH]; simpl; done. Qed.

Lemma runs_transforms (t : HTTPRequestTransforms) :
  runs (parseHTTPRequestTransforms t) (transformsEvents t) (λ _, True).
Proof.
  unfold parseHTTPRequestTransforms, transformsEvents.
  eapply runs_weaken.
  - eapply runs_bind; [apply runs_parseTemplate|].
    intros [tpl err] _. eapply runs_bind; [apply runs_check|].
    intros _ _. eapply runs_bind.
    + apply runs_forM with (g := λ a, [EvTemplate (anv_Value a)]).
      intros a _. apply runs_parseTemplate_check.
    + intros _ _. apply runs_forM with (g := λ a, [EvTemplate (anv_Value a)]).
      intros a _. apply runs_parseTemplate_check.
  - done.
  - done.
Qed.

Lemma runs_compileRegExp (r : string) : runs (compileRegExp r) [] (λ _, True).
Proof.
  unfold compileRegExp. destruct (regexp_Compile r); [|apply runs_panic].
  by apply runs_modify.
Qed.

Lemma runs_parameters (ps : list APIOperationParameter) :
  runs (forM_ ps (λ i, bind (parseAPIOperationParameter (Transformation i)) check))
    (flat_map paramEvents ps) (λ _, True).
Proof. apply runs_forM. intros p _. apply runs_parameter. Qed.

Lemma runs_match (api : APISpec) (op : APIOperation) (m : HTTPMatch) :
  runs
    (bind (parseTemplate (PathTemplate m))
       (λ '(t, err),
          bind (check err)
            (λ _, modify (set_opPathTree (λ tr,
               AddChild tr
                 ([api_ID api;
                   if decide (Method m = anyMethod) then wildcard else Method m]
                  ++ strings_Split (PathTemplate m) "/"%char)
                 0 (mkOpTemplateMatch op t))))))
    (matchEvents api op m) (λ _, True).
Proof.
  unfold matchEvents. eapply runs_weaken.
  - eapply runs_bind; [apply runs_parseTemplate|].
    intros [t err] Ht. simpl in Ht. subst t.
    eapply runs_bind; [apply runs_check|].
    intros _ _. apply runs_modify with
      (l := [EvOperation
               ([api_ID api;
                 if decide (Method m = anyMethod) then wildcard else Method m]
                ++ strings_Split (PathTemplate m) "/"%char)
               (mkOpTemplateMatch op (templateOf (PathTemplate m)))]).
    done.
  - done.
  - done.
Qed.

Lemma runs_buildOperation (api : APISpec) (op : APIOperation) :
  runs (buildOperation api op) (operationEvents api op) (λ _, True).
Proof.
  unfold buildOperation, operationEvents.
  eapply runs_bind with (Q := λ _, True).
  - destruct (decide (length (HTTPMatches op) = 0%nat)).
    + by apply runs_modify.
    + apply runs_forM. intros m _. apply runs_match.
  - intros _ _. eapply runs_bind; [apply runs_parameters|].
    intros _ _. apply runs_transforms.
Qed.

Lemma runs_buildAPI (api : APISpec) :
  runs (buildAPI api) (apiEvents api) (λ _, True).
Proof.
  unfold buildAPI, apiEvents, varyFlag.
  destruct (corsOrigins (AllowOrigins (Cors api))) as [allowedOrigins mustVary].
  eapply runs_weaken.
  - eapply runs_bind; [by apply runs_modify with (l := [])|].
    intros _ _. eapply runs_bind; [by apply runs_modify with (l := [])|].
    intros _ _. eapply runs_bind.
    { apply runs_forM with (g := λ _, []). intros r _. apply runs_compileRegExp. }
    intros _ _. eapply runs_bind.
    { apply runs_modify with
        (l := [EvVary (api_ID api)
                 (mustVary
                  || (0 <? length (AllowOriginsRegexes (Cors api)))%nat
                  || (1 <? length (AllowOrigins (Cors api)))%nat)]).
      done. }
    intros _ _. eapply runs_bind; [apply runs_parameters|].
    intros _ _. eapply runs_bind; [apply runs_transforms|].
    intros _ _. apply runs_forM. intros op _. apply runs_buildOperation.
  - simpl. by rewrite flat_map_nil.
  - done.
Qed.

Lemma runs_build (spec : EnvironmentSpec) (e : EnvironmentSpecExt) a e' :
  build spec e = Ok (a, e') →
  ext_EnvironmentSpec e' = ext_EnvironmentSpec e
  ∧ observe e' =
      fold_left apply_event
        (flat_map apiEvents (APIs spec) ++ flat_map jwtEvents (JWTAuthentications e))
        (observe e).
Proof.
  unfold build, bind at 1.
  destruct (forM_ (APIs spec) buildAPI e) as [[[] e1]| |] eqn:E1; [|done..].
  destruct (runs_forM (APIs spec) buildAPI apiEvents
              (λ api _, runs_buildAPI api) e tt e1 E1) as (_ & Hs1 & Ho1).
  unfold bind at 1, get. intros Hrun.
  assert (Hj : runs
    (forM_ (JWTAuthentications e1)
       (λ j, forM_ (jwt_In j)
          (λ i, bind (parseAPIOperationParameter (Transformation i)) check)))
    (flat_map jwtEvents (JWTAuthentications e1)) (λ _, True)).
  { apply runs_forM. intros j _. apply runs_parameters. }
  destruct (Hj e1 a e' Hrun) as (_ & Hs2 & Ho2).
  split; [congruence|].
  rewrite fold_left_app, <- Ho1, Ho2.
  unfold JWTAuthentications. by rewrite Hs1.
Qed.

End Runs.

(** ** The aggregate accessor *)

Section Accessor.
Context `{Ext : Externals}.

Lemma fold_left_append {A} (l acc : list A) :
  fold_left (λ auths v, auths ++ [v]) l acc = acc ++ l.
Proof.
  revert acc. induction l as [|x l IH]; intros acc; simpl.
  - by rewrite app_nil_r.
  - by rewrite IH, <- app_assoc.
Qed.

Lemma fold_left_operations (ops : list APIOperation) (acc : list JWTAuthentication) :
  fold_left
    (λ auths op,
       fold_left (λ auths v, auths ++ [v]) (op_jwtAuthentications op) auths)
    ops acc
  = acc ++ flat_map op_jwtAuthentications ops.
Proof.
  revert acc. induction ops as [|op ops IH]; intros acc; simpl.
  - by rewrite app_nil_r.
  - by rewrite IH, fold_left_append, <- app_assoc.
Qed.

Lemma fold_left_apis (apis : list APISpec) (acc : list JWTAuthentication) :
  fold_left
    (λ auths api,
       let auths :=
         fold_left (λ auths v, auths ++ [v]) (api_jwtAuthentications api) auths in
       fold_left
         (λ auths op,
            fold_left (λ auths v, auths ++ [v]) (op_jwtAuthentications op) auths)
         (Operations api) auths)
    apis acc
  = acc ++ flat_map
             (λ api, api_jwtAuthentications api
                     ++ flat_map op_jwtAuthentications (Operations api)) apis.
Proof.
  revert acc. induction apis as [|api apis IH]; intros acc; simpl.
  - by rewrite app_nil_r.
  - rewrite IH, fold_left_operations, fold_left_append.
    by rewrite <- !app_assoc.
Qed.

Lemma JWTAuthentications_perAPIOrder (e : EnvironmentSpecExt) :
  JWTAuthentications e = perAPIOrder (ext_EnvironmentSpec e).
Proof. unfold JWTAuthentications. by rewrite fold_left_apis. Qed.

Lemma perAPIOrder_permutation (spec : EnvironmentSpec) :
  perAPIOrder spec ≡ₚ allAPIsThenAllOperations spec.
Proof.
  unfold perAPIOrder, allAPIsThenAllOperations.
  induction (APIs spec) as [|api apis IH]; simpl; [done|].
  rewrite IH. solve_Permutation.
Qed.

Lemma perAPIOrder_flattened (spec : EnvironmentSpec) :
  flattened spec →
  perAPIOrder spec =
    flat_map
      (λ api, flattenJWT (api_Authentication api)
              ++ flat_map (λ op, flattenJWT (op_Authentication op)) (Operations api))
      (APIs spec).
Proof.
  unfold flattened, perAPIOrder. induction (APIs spec) as [|api apis IH]; simpl.
  - done.
  - intros H. destruct (H api) as [Ha Hops]; [left|].
    rewrite IH by (intros a Ha'; apply H; by right).
    f_equal. rewrite Ha. f_equal.
    clear -Hops. induction (Operations api) as [|op ops IHo]; simpl; [done|].
    rewrite (Hops op) by left.
    rewrite IHo by (intros o Ho; apply Hops; by right). done.
Qed.

Lemma flattenSpec_flattened (spec : EnvironmentSpec) : flattened (flattenSpec spec).
Proof.
  intros api Hapi. simpl in Hapi. apply list_elem_of_fmap in Hapi as (a & -> & _).
  split; [done|]. intros op Hop. simpl in Hop.
  apply list_elem_of_fmap in Hop as (o & -> & _). done.
Qed.

End Accessor.

(** ** The stores of a constructed extension *)

Section Stores.
Context `{Ext : Externals}.

Lemma omap_flat_map {A B C} (f : B → option C) (g : A → list B) (l : list A) :
  omap f (flat_map g l) = flat_map (λ x, omap f (g x)) l.
Proof. induction l as [|x l IH]; simpl; [done|]. by rewrite omap_app, IH. Qed.

Lemma flat_map_ext_elem {A B} (f g : A → list B) (l : list A) :
  (∀ x, x ∈ l → f x = g x) → flat_map f l = flat_map g l.
Proof.
  induction l as [|x l IH]; intros H; simpl; [done|].
  rewrite (H x) by left. rewrite IH; [done|]. intros y Hy. apply H. by right.
Qed.

Lemma fold_events (l : list event) t o v :
  fold_left apply_event l (t, o, v)
  = (fold_left cacheTemplate (templatesOf l) t,
     o ++ operationsOf l,
     fold_left setVary (varyOf l) v).
Proof.
  revert t o v. induction l as [|ev l IH]; intros t o v; simpl.
  - by rewrite app_nil_r.
  - destruct ev as [s|path m|k b]; simpl; rewrite IH; [done| |done].
    by rewrite <- app_assoc.
Qed.

Lemma NewEnvironmentSpecExt_Ok (spec : EnvironmentSpec) (ec : EnvironmentSpecExt) :
  NewEnvironmentSpecExt spec = Ok ec →
  ext_EnvironmentSpec ec = spec
  ∧ compiledTemplates ec = fold_left cacheTemplate (templatesOf (specEvents spec)) ∅
  ∧ opPathTree ec = operationsOf (specEvents spec)
  ∧ corsVary ec = fold_left setVary (varyOf (specEvents spec)) ∅.
Proof.
  unfold NewEnvironmentSpecExt.
  destruct (build spec _) as [[[] e']| |] eqn:Eb; [|done..].
  intros [= <-]. apply runs_build in Eb as [Hs Ho].
  rewrite JWTAuthentications_perAPIOrder in Ho. simpl in Hs, Ho.
  unfold observe in Ho. simpl in Ho. fold (specEvents spec) in Ho.
  rewrite fold_events in Ho. injection Ho as Ht Hop Hv. done.
Qed.

(** *** The operation tree *)

Lemma operationsOf_operation (api : APISpec) (op : APIOperation) :
  operationsOf (operationEvents api op) = operationInsertions api op.
Proof.
  unfold operationEvents, operationInsertions, transformsEvents, operationsOf.
  rewrite !omap_app, !omap_flat_map. simpl. rewrite !flat_map_nil, !app_nil_r.
  destruct (HTTPMatches op) as [|m ms]; simpl; [done|].
  rewrite omap_flat_map. simpl. by rewrite flat_map_singleton.
Qed.

Lemma operationsOf_api (api : APISpec) :
  operationsOf (apiEvents api)
  = flat_map (operationInsertions api) (Operations api).
Proof.
  unfold apiEvents, transformsEvents, operationsOf.
  rewrite !omap_app, !omap_flat_map. simpl. rewrite !flat_map_nil. simpl.
  apply flat_map_ext_elem. intros op _. apply operationsOf_operation.
Qed.

Lemma operationsOf_spec (spec : EnvironmentSpec) :
  operationsOf (specEvents spec)
  = flat_map (λ api, flat_map (operationInsertions api) (Operations api)) (APIs spec).
Proof.
  unfold specEvents, jwtEvents, operationsOf.
  rewrite omap_app, !omap_flat_map.
  rewrite (flat_map_ext_elem _ (λ _, []) (perAPIOrder spec)), flat_map_nil, app_nil_r.
  - apply flat_map_ext_elem. intros api _. apply operationsOf_api.
  - intros j _. rewrite omap_flat_map. simpl. apply flat_map_nil.
Qed.

(** *** The vary flags *)

Lemma varyOf_spec (spec : EnvironmentSpec) :
  varyOf (specEvents spec)
  = map (λ api, (api_ID api, varyFlag (Cors api))) (APIs spec).
Proof.
  unfold specEvents, jwtEvents, varyOf.
  rewrite omap_app, !omap_flat_map.
  rewrite (flat_map_ext_elem _ (λ _, []) (perAPIOrder spec)), flat_map_nil, app_nil_r.
  - rewrite <- flat_map_singleton. apply flat_map_ext_elem. intros api _.
    unfold apiEvents, transformsEvents.
    rewrite !omap_app, !omap_flat_map. simpl. rewrite !flat_map_nil. simpl.
    f_equal. rewrite (flat_map_ext_elem _ (λ _, [])); [apply flat_map_nil|].
    intros op _. unfold operationEvents, transformsEvents.
    rewrite !omap_app, !omap_flat_map. simpl. rewrite !flat_map_nil, !app_nil_r.
    destruct (decide (length (HTTPMatches op) = 0%nat)); simpl; [done|].
    rewrite omap_flat_map. simpl. apply flat_map_nil.
  - intros j _. rewrite omap_flat_map. simpl. apply flat_map_nil.
Qed.

Lemma fold_setVary_notin (l : list (string * bool)) (m : gmap string bool) k :
  k ∉ l.*1 → fold_left setVary l m !! k = m !! k.
Proof.
  revert m. induction l as [|[k' v'] l IH]; intros m Hk; simpl; [done|].
  simpl in Hk. apply not_elem_of_cons in Hk as [Hne Hk].
  rewrite IH by done. unfold setVary. simpl. by rewrite lookup_insert_ne.
Qed.

Lemma fold_setVary_lookup (l : list (string * bool)) (m : gmap string bool) k v :
  NoDup l.*1 → (k, v) ∈ l → fold_left setVary l m !! k = Some v.
Proof.
  revert m. induction l as [|[k' v'] l IH]; intros m Hnd Hin; simpl.
  - by apply elem_of_nil in Hin.
  - simpl in Hnd. apply NoDup_cons in Hnd as [Hk' Hnd].
    apply elem_of_cons in Hin as [[= <- <-]|Hin].
    + rewrite fold_setVary_notin by done. unfold setVary. simpl.
      apply lookup_insert_eq.
    + by apply IH.
Qed.

Lemma corsOrigins_wildcard (origins : list string) :
  (corsOrigins origins).2 = true ↔ "*" ∈ origins.
Proof.
  unfold corsOrigins.
  assert (H : ∀ (l : list string) (m : gmap string bool) (b : bool),
    (fold_left
       (λ '(allowedOrigins, mustVary) o,
          (<[o := true]> allowedOrigins,
           if decide (o = wildcard) then true else mustVary))
       l (m, b)).2 = true ↔ b = true ∨ "*" ∈ l).
  { intros l. induction l as [|o l IH]; intros m b; simpl.
    - rewrite elem_of_nil. tauto.
    - rewrite IH, elem_of_cons. unfold wildcard.
      destruct (decide (o = "*")) as [->|Hne]; [tauto|].
      split; [tauto|]. intros [?|[?|?]]; [tauto|congruence|tauto]. }
  rewrite H. split; [intros [?|?]; [done|tauto]|tauto].
Qed.

Lemma varyFlag_spec (c : CorsPolicy) :
  varyFlag c = true
  ↔ "*" ∈ AllowOrigins c
    ∨ AllowOriginsRegexes c ≠ []
    ∨ (length (AllowOrigins c) > 1)%nat.
Proof.
  unfold varyFlag. rewrite !orb_true_iff, corsOrigins_wildcard.
  rewrite !Nat.ltb_lt.
  assert (AllowOriginsRegexes c ≠ [] ↔ (0 < length (AllowOriginsRegexes c))%nat).
  { destruct (AllowOriginsRegexes c); simpl; split; intros; (done || lia). }
  unfold gt. tauto.
Qed.

(** *** The template cache *)

Lemma set_unfold_flat_map {A B} (f : A → list B) (l : list A)
    (y : B) (P Q : A → Prop) :
  (∀ x, SetUnfoldElemOf y (f x) (P x)) → (∀ x, SetUnfoldElemOf x l (Q x)) →
  SetUnfoldElemOf y (flat_map f l) (∃ x, P x ∧ Q x).
Proof.
  intros HP HQ. constructor. rewrite list_elem_of_In, in_flat_map. split.
  - intros (x & Hx & Hy). exists x. split.
    + by apply (set_unfold_elem_of y (f x) (P x)), list_elem_of_In.
    + by apply (set_unfold_elem_of x l (Q x)), list_elem_of_In.
  - intros (x & Hy & Hx). exists x. split.
    + by apply list_elem_of_In, (set_unfold_elem_of x l (Q x)).
    + by apply list_elem_of_In, (set_unfold_elem_of y (f x) (P x)).
Qed.

#[local] Existing Instance set_unfold_flat_map.

Lemma templatesOf_app (l1 l2 : list event) :
  templatesOf (l1 ++ l2) = templatesOf l1 ++ templatesOf l2.
Proof. apply omap_app. Qed.

Lemma templatesOf_flat_map {A} (g : A → list event) (l : list A) :
  templatesOf (flat_map g l) = flat_map (λ x, templatesOf (g x)) l.
Proof. apply omap_flat_map. Qed.

Lemma templatesOf_transforms (t : HTTPRequestTransforms) :
  templatesOf (transformsEvents t) = transformTemplates t.
Proof.
  unfold transformsEvents, transformTemplates.
  rewrite !templatesOf_app, !templatesOf_flat_map. simpl.
  by rewrite !flat_map_singleton.
Qed.

Lemma templatesOf_params (ps : list APIOperationParameter) :
  templatesOf (flat_map paramEvents ps) = flat_map paramTemplates ps.
Proof. by rewrite templatesOf_flat_map. Qed.

Lemma templatesOf_operation (api : APISpec) (op : APIOperation) :
  templatesOf (operationEvents api op)
  = map PathTemplate (HTTPMatches op)
    ++ flat_map paramTemplates (ca_In (op_ConsumerAuthorization op))
    ++ transformTemplates (op_HTTPRequestTransforms op).
Proof.
  unfold operationEvents.
  rewrite !templatesOf_app, templatesOf_params, templatesOf_transforms.
  f_equal. destruct (HTTPMatches op) as [|m ms]; simpl; [done|].
  change (templatesOf (matchEvents api op m ++ flat_map (matchEvents api op) ms))
    with (templatesOf (flat_map (matchEvents api op) (m :: ms))).
  rewrite templatesOf_flat_map. simpl. by rewrite flat_map_singleton.
Qed.

Lemma templatesOf_api (api : APISpec) :
  templatesOf (apiEvents api)
  = flat_map paramTemplates (ca_In (api_ConsumerAuthorization api))
    ++ transformTemplates (api_HTTPRequestTransforms api)
    ++ flat_map
         (λ op, map PathTemplate (HTTPMatches op)
                ++ flat_map paramTemplates (ca_In (op_ConsumerAuthorization op))
                ++ transformTemplates (op_HTTPRequestTransforms op))
         (Operations api).
Proof.
  unfold apiEvents.
  rewrite !templatesOf_app, templatesOf_params, templatesOf_transforms,
    templatesOf_flat_map.
  simpl. do 2 f_equal.
  by rewrite (flat_map_ext_elem _ _ _ (λ op _, templatesOf_operation api op)).
Qed.

Lemma templatesOf_spec (spec : EnvironmentSpec) :
  templatesOf (specEvents spec)
  = flat_map (λ api, templatesOf (apiEvents api)) (APIs spec)
    ++ flat_map (λ j, flat_map paramTemplates (jwt_In j)) (perAPIOrder spec).
Proof.
  unfold specEvents, jwtEvents.
  rewrite templatesOf_app, !templatesOf_flat_map. f_equal.
  apply flat_map_ext_elem. intros j _. apply templatesOf_params.
Qed.

Lemma elem_of_templatesOf_spec (spec : EnvironmentSpec) (s : string) :
  flattened spec →
  s ∈ templatesOf (specEvents spec) ↔ s ∈ templateStrings spec.
Proof.
  intros Hflat. rewrite templatesOf_spec, perAPIOrder_flattened by done.
  unfold templateStrings, apiTemplates, operationTemplates, authTemplates.
  rewrite (flat_map_ext_elem _ _ (APIs spec) (λ api _, templatesOf_api api)).
  set_unfold. naive_solver.
Qed.

Lemma fold_cacheTemplate_lookup (l : list string)
    (m : gmap string (option Template_t)) (s : string) :
  fold_left cacheTemplate l m !! s
  = if decide (s ≠ "" ∧ s ∈ l) then Some (transform_Parse s).1 else m !! s.
Proof.
  revert m. induction l as [|x l IH]; intros m; simpl.
  - rewrite decide_False; [done|]. intros [_ H]. by apply elem_of_nil in H.
  - rewrite IH. destruct (decide (s ≠ "" ∧ s ∈ l)) as [[Hs Hin]|Hn].
    + rewrite decide_True; [done|]. split; [done|]. by right.
    + unfold cacheTemplate. destruct (decide (x = "")) as [->|Hx].
      * rewrite decide_False; [done|]. intros [Hs Hin].
        apply elem_of_cons in Hin as [?|?]; [done|]. apply Hn. done.
      * destruct (decide (x = s)) as [->|Hxs].
        -- rewrite lookup_insert_eq. rewrite decide_True; [done|].
           split; [done|]. left.
        -- rewrite lookup_insert_ne by done. rewrite decide_False; [done|].
           intros [Hs Hin]. apply elem_of_cons in Hin as [?|?]; [done|].
           apply Hn. done.
Qed.

Lemma compiledTemplates_lookup (spec : EnvironmentSpec) (ec : EnvironmentSpecExt)
    (s : string) :
  flattened spec →
  NewEnvironmentSpecExt spec = Ok ec →
  compiledTemplates ec !! s
  = if decide (s ∈ distinctTemplates spec) then Some (transform_Parse s).1 else None.
Proof.
  intros Hflat Hok. apply NewEnvironmentSpecExt_Ok in Hok as (_ & -> & _ & _).
  rewrite fold_cacheTemplate_lookup, lookup_empty.
  unfold distinctTemplates.
  destruct (decide (s ≠ "" ∧ s ∈ templatesOf (specEvents spec))) as [[Hs Hin]|Hn].
  - rewrite decide_True; [done|].
    apply elem_of_remove_dups, list_elem_of_filter. split; [done|].
    by apply elem_of_templatesOf_spec.
  - rewrite decide_False; [done|]. intros Hin. apply Hn.
    apply elem_of_remove_dups, list_elem_of_filter in Hin as [Hs Hin].
    split; [done|]. by apply elem_of_templatesOf_spec.
Qed.

Lemma compiledTemplates_dom (spec : EnvironmentSpec) (ec : EnvironmentSpecExt) :
  flattened spec →
  NewEnvironmentSpecExt spec = Ok ec →
  dom (compiledTemplates ec) = list_to_set (distinctTemplates spec).
Proof.
  intros Hflat Hok. apply set_eq. intros s.
  rewrite elem_of_dom, elem_of_list_to_set,
    (compiledTemplates_lookup spec ec s Hflat Hok).
  destruct (decide (s ∈ distinctTemplates spec)).
  - split; eauto.
  - split; [by intros [x Hx] | done].
Qed.

End Stores.

(** ** The statements about the constructor and its accessor *)

Section Claims.
Context `{Ext : Externals}.

(** C1 (amended): [JWTAuthentications] returns, API by API in the order of
    the specification, the flattened list of the API followed by the
    flattened lists of its operations; this is a rearrangement of "the
    lists of all APIs, then the lists of all operations"; and when the
    flattened lists are those of validation, each one is the depth-first
    list of the JWT leaves of its requirement tree. *)
Theorem JWTAuthentications_spec :
  ∀ e : EnvironmentSpecExt,
    JWTAuthentications e
    = flat_map
        (λ api, api_jwtAuthentications api
                ++ flat_map op_jwtAuthentications (Operations api))
        (APIs (ext_EnvironmentSpec e))
    ∧ JWTAuthentications e ≡ₚ allAPIsThenAllOperations (ext_EnvironmentSpec e)
    ∧ (flattened (ext_EnvironmentSpec e) →
       JWTAuthentications e
       = flat_map
           (λ api, flattenJWT (api_Authentication api)
                   ++ flat_map (λ op, flattenJWT (op_Authentication op))
                        (Operations api))
           (APIs (ext_EnvironmentSpec e))).
Proof.
  intros e. rewrite JWTAuthentications_perAPIOrder. split; [done|]. split.
  - apply perAPIOrder_permutation.
  - apply perAPIOrder_flattened.
Qed.

(** C6: after a successful construction from a validated specification,
    the template cache has one entry for each distinct non-empty raw
    template string of the specification, however often the string
    occurs, and [GetTemplate] on such a string returns the template that
    [transform.Parse] made of it. *)
Theorem compiledTemplates_distinct :
  ∀ (spec : EnvironmentSpec) (ec : EnvironmentSpecExt),
    flattened spec →
    NewEnvironmentSpecExt spec = Ok ec →
    size (compiledTemplates ec) = length (distinctTemplates spec)
    ∧ ∀ s, s ∈ templateStrings spec → s ≠ "" →
        compiledTemplates ec !! s = Some (transform_Parse s).1
        ∧ GetTemplate ec s = (transform_Parse s).1.
Proof.
  intros spec ec Hflat Hok. split.
  - rewrite <- size_dom, (compiledTemplates_dom spec ec Hflat Hok).
    apply size_list_to_set, NoDup_remove_dups.
  - intros s Hin Hs. unfold GetTemplate.
    rewrite (compiledTemplates_lookup spec ec s Hflat Hok).
    rewrite decide_True; [done|].
    apply elem_of_remove_dups, list_elem_of_filter. done.
Qed.

(** C7: after a successful construction the operation tree has received,
    for every operation without HTTP matches, the one key
    [API ID, "*", "*"], and for every other operation one key per match,
    whose method segment is ["*"] when the method of the match is the
    any-method token. *)
Theorem opPathTree_insertions :
  ∀ (spec : EnvironmentSpec) (ec : EnvironmentSpecExt),
    NewEnvironmentSpecExt spec = Ok ec →
    opPathTree ec
    = flat_map
        (λ api,
           flat_map
             (λ op,
                if decide (HTTPMatches op = [])
                then [([api_ID api; "*"; "*"], mkOpTemplateMatch op None)]
                else map
                       (λ m,
                          ([api_ID api;
                            if decide (Method m = anyMethod) then "*" else Method m]
                           ++ strings_Split (PathTemplate m) "/"%char,
                           mkOpTemplateMatch op (templateOf (PathTemplate m))))
                       (HTTPMatches op))
             (Operations api))
        (APIs spec).
Proof.
  intros spec ec Hok. apply NewEnvironmentSpecExt_Ok in Hok as (_ & _ & -> & _).
  apply operationsOf_spec.
Qed.

(** C8: after a successful construction from a specification whose API IDs
    are distinct, the vary flag stored for an API is true exactly when its
    literal origins contain ["*"], or it has an origin regular expression,
    or it has more than one literal origin. *)
Theorem corsVary_spec :
  ∀ (spec : EnvironmentSpec) (ec : EnvironmentSpecExt) (api : APISpec),
    NewEnvironmentSpecExt spec = Ok ec →
    NoDup (map api_ID (APIs spec)) →
    api ∈ APIs spec →
    ∃ mustVary : bool,
      corsVary ec !! api_ID api = Some mustVary
      ∧ (mustVary = true
         ↔ "*" ∈ AllowOrigins (Cors api)
           ∨ AllowOriginsRegexes (Cors api) ≠ []
           ∨ (length (AllowOrigins (Cors api)) > 1)%nat).
Proof.
  intros spec ec api Hok Hnd Hin.
  apply NewEnvironmentSpecExt_Ok in Hok as (_ & _ & _ & ->).
  exists (varyFlag (Cors api)). split; [|apply varyFlag_spec].
  rewrite varyOf_spec. apply fold_setVary_lookup.
  - by rewrite <- list_fmap_compose.
  - apply list_elem_of_fmap. by exists api.
Qed.

End Claims.

(** ** Encoding and decoding requirements *)

Lemma AuthenticationRequirement_nested_ind (P : AuthenticationRequirement → Prop) :
  (∀ d, P (mkAuthenticationRequirement d NoRequirements)) →
  (∀ d j, P (mkAuthenticationRequirement d (JWT j))) →
  (∀ d rs, Forall P rs →
     P (mkAuthenticationRequirement d (AnyAuthenticationRequirements rs))) →
  (∀ d rs, Forall P rs →
     P (mkAuthenticationRequirement d (AllAuthenticationRequirements rs))) →
  (∀ d tag, P (mkAuthenticationRequirement d (OtherRequirements tag))) →
  ∀ a, P a.
Proof.
  intros HNo HJ HAny HAll HOther. fix IH 1.
  intros [d [|j|rs|rs|tag]].
  - apply HNo.
  - apply HJ.
  - apply HAny. induction rs as [|r rs IHrs]; constructor; [apply IH | exact IHrs].
  - apply HAll. induction rs as [|r rs IHrs]; constructor; [apply IH | exact IHrs].
  - apply HOther.
Qed.

Lemma traverse_roundtrip {A B} (enc : A → result B) (dec : B → result A)
    (l : list A) :
  Forall (λ x, ∃ y, enc x = Success y ∧ dec y = Success x) l →
  ∃ ys, traverse enc l = Success ys ∧ traverse dec ys = Success l.
Proof.
  induction 1 as [|x l (y & Hx & Hy) _ (ys & Hl & Hys)]; simpl.
  - by exists [].
  - exists (y :: ys). rewrite Hx. simpl. rewrite Hl. simpl.
    rewrite Hy. simpl. rewrite Hys. done.
Qed.

Lemma param_roundtrip (p : APIOperationParameter) :
  validParam p = true →
  ∃ r, encodeParam p = Success r ∧ decodeParam r = Success p.
Proof.
  destruct p as [[h|q|requirement name|tag|] t];
    unfold validParam, encodeParam; simpl; intros Hv; try done; eauto.
Qed.

Lemma jwt_roundtrip (j : JWTAuthentication) :
  validJWT j = true →
  ∃ r, encodeJWT j = Success r ∧ decodeJWT r = Success j.
Proof.
  destruct j as [name issuer audiences [url duration|tag|] params];
    unfold validJWT, encodeJWT; simpl; intros Hv; try done.
  destruct (traverse_roundtrip encodeParam decodeParam params) as (rs & He & Hd).
  { rewrite forallb_forall in Hv. apply Forall_forall.
    intros p Hp. apply param_roundtrip, Hv. by apply list_elem_of_In. }
  rewrite He. simpl. eexists. split; [done|].
  unfold decodeJWT. simpl. rewrite Hd. done.
Qed.

Lemma auth_roundtrip (a : AuthenticationRequirement) :
  validAuth a = true →
  ∃ r, encodeAuth a = Success r ∧ decodeAuth r = Success a.
Proof.
  induction a as [d|d j|d rs IH|d rs IH|d tag]
    using AuthenticationRequirement_nested_ind; simpl; intros Hv; try done.
  - destruct (jwt_roundtrip j Hv) as (r & He & Hd). rewrite He. simpl.
    eexists. split; [done|]. simpl. rewrite Hd. simpl.
    unfold decodeWrapper. simpl. done.
  - destruct (traverse_roundtrip encodeAuth decodeAuth rs) as (rs' & He & Hd).
    { rewrite forallb_forall in Hv. rewrite Forall_forall in IH.
      apply Forall_forall. intros r Hr. apply IH; [done|].
      by apply Hv, list_elem_of_In. }
    rewrite He. simpl. eexists. split; [done|]. simpl. rewrite Hd. simpl.
    unfold decodeWrapper. simpl. done.
  - destruct (traverse_roundtrip encodeAuth decodeAuth rs) as (rs' & He & Hd).
    { rewrite forallb_forall in Hv. rewrite Forall_forall in IH.
      apply Forall_forall. intros r Hr. apply IH; [done|].
      by apply Hv, list_elem_of_In. }
    rewrite He. simpl. eexists. split; [done|]. simpl. rewrite Hd. simpl.
    unfold decodeWrapper. simpl. done.
Qed.

Lemma present_traverseOption {A B} (f : A → result B) (o : option A) (o' : option B) :
  traverseOption f o = Success o' → present o' = present o.
Proof.
  destruct o as [x|]; simpl.
  - destruct (f x); simpl; [|done]. by intros [= <-].
  - by intros [= <-].
Qed.

Example test_any_and_jwt_coexist :
  decodeAuth anyAndJwtCoexist
  = Failure (ErrMessage "precisely one of jwt, any or all should be set").
Proof. reflexivity. Qed.

Example test_all_and_jwt_coexist :
  decodeAuth allAndJwtCoexist
  = Failure (ErrMessage "precisely one of jwt, any or all should be set").
Proof. reflexivity. Qed.

Example test_all_and_any_coexist :
  decodeAuth allAndAnyCoexist
  = Failure (ErrMessage "precisely one of jwt, any or all should be set").
Proof. reflexivity. Qed.

Example test_disabled_eliminates_error :
  ∃ a, decodeAuth disabledAllAndAny = Success a.
Proof. eexists. reflexivity. Qed.

(** C2: a decoded record that is not disabled and has none or several of
    the keys [jwt], [any], [all] is rejected with the message "precisely
    one of jwt, any or all should be set"; a disabled record is accepted
    whatever keys it has.  The same holds of the decoder on a record of
    the textual form whose values under the three keys decode. *)
Theorem decode_precisely_one :
  (∀ w : authWrapper,
     (w_Disabled w = false → keysPresent w ≠ 1%nat →
      decodeWrapper w
      = Failure (ErrMessage "precisely one of jwt, any or all should be set"))
     ∧ (w_Disabled w = true →
        ∃ a, decodeWrapper w = Success a ∧ Disabled a = true))
  ∧ (∀ d j any all j' any' all',
       traverseOption decodeJWT j = Success j' →
       traverseOption (traverse decodeAuth) any = Success any' →
       traverseOption (traverse decodeAuth) all = Success all' →
       (d = false → (present j + present any + present all)%nat ≠ 1%nat →
        decodeAuth (mkAuthRecord d j any all)
        = Failure (ErrMessage "precisely one of jwt, any or all should be set"))
       ∧ (d = true → ∃ a, decodeAuth (mkAuthRecord d j any all) = Success a)).
Proof.
  assert (Hw : ∀ w : authWrapper,
     (w_Disabled w = false → keysPresent w ≠ 1%nat →
      decodeWrapper w
      = Failure (ErrMessage "precisely one of jwt, any or all should be set"))
     ∧ (w_Disabled w = true →
        ∃ a, decodeWrapper w = Success a ∧ Disabled a = true)).
  { intros w. unfold decodeWrapper. split.
    - intros -> Hn. apply Nat.eqb_neq in Hn. by rewrite Hn.
    - intros ->. rewrite andb_false_r. eexists. split; done. }
  split; [exact Hw|].
  intros d j any all j' any' all' Hj Hany Hall. simpl.
  rewrite Hj, Hany, Hall. simpl.
  destruct (Hw (mkAuthWrapper d j' any' all')) as [Hfalse Htrue]. split.
  - intros Hd Hn. apply Hfalse; [done|]. unfold keysPresent. simpl.
    by rewrite (present_traverseOption _ _ _ Hj),
      (present_traverseOption _ _ _ Hany), (present_traverseOption _ _ _ Hall).
  - intros Hd. destruct (Htrue Hd) as (a & Ha & _). by exists a.
Qed.

Lemma decode_precisely_one_witness :
  ∃ a, decodeWrapper disabledTwoKeys = Success a ∧ Disabled a = true.
Proof. apply (proj1 decode_precisely_one disabledTwoKeys). reflexivity. Defined.

(** C5: a valid requirement, nested any-of and all-of nodes over JWT leaves
    included, is encoded to a record of the textual form, and decoding
    that record gives the requirement back. *)
Theorem encode_decode_roundtrip :
  ∀ a : AuthenticationRequirement,
    validAuth a = true →
    ∃ r, encodeAuth a = Success r ∧ decodeAuth r = Success a.
Proof. apply auth_roundtrip. Qed.

Lemma encode_decode_roundtrip_witness :
  ∃ r, encodeAuth anyEnclosingAllAndJwt = Success r
       ∧ decodeAuth r = Success anyEnclosingAllAndJwt.
Proof. apply (encode_decode_roundtrip anyEnclosingAllAndJwt). reflexivity. Defined.

(** ** The test specification *)

Example test_JWTAuthentications_count :
  length (JWTAuthentications goodEnvSpecExt) = 8%nat.
Proof. vm_compute. reflexivity. Qed.

Example test_compiledTemplates_count :
  size (compiledTemplates goodEnvSpecExt) = 10%nat.
Proof. vm_compute. reflexivity. Qed.

Lemma goodEnvSpecExt_built :
  NewEnvironmentSpecExt (Ext := testExternals) createGoodEnvSpec = Ok goodEnvSpecExt.
Proof. vm_compute. reflexivity. Qed.

Lemma JWTAuthentications_spec_witness :
  JWTAuthentications twoAPIsExt = [jwtA; jwtB; jwtC].
Proof.
  rewrite (proj2 (proj2 (JWTAuthentications_spec twoAPIsExt))
             (flattenSpec_flattened _)).
  reflexivity.
Defined.

(** C1, as stated: the accessor does not return the lists of all the APIs
    followed by the lists of all the operations; with two APIs, the list
    of the first API's operation comes before the list of the second
    API. *)
Lemma JWTAuthentications_order_counterexample :
  map jwt_Name (JWTAuthentications twoAPIsExt) = ["a"; "b"; "c"]
  ∧ map jwt_Name (allAPIsThenAllOperations twoAPIsSpec) = ["a"; "c"; "b"]
  ∧ JWTAuthentications twoAPIsExt
    ≠ allAPIsThenAllOperations (ext_EnvironmentSpec twoAPIsExt).
Proof. split; [reflexivity|]. split; [reflexivity|]. vm_compute. discriminate. Qed.

Lemma compiledTemplates_distinct_witness :
  size (compiledTemplates goodEnvSpecExt) = length (distinctTemplates createGoodEnvSpec)
  ∧ ∀ s, s ∈ templateStrings createGoodEnvSpec → s ≠ "" →
      compiledTemplates goodEnvSpecExt !! s = Some (transform_Parse s).1
      ∧ GetTemplate goodEnvSpecExt s = (transform_Parse s).1.
Proof.
  apply (compiledTemplates_distinct (Ext := testExternals)
           createGoodEnvSpec goodEnvSpecExt).
  - apply flattenSpec_flattened.
  - vm_compute. reflexivity.
Defined.

Lemma opPathTree_insertions_witness :
  (["empty-operation"; "*"; "*"],
   mkOpTemplateMatch (Ext := testExternals)
     (mkAPIOperation "empty" [] noAuthentication noAuthorization noTransforms [])
     None)
  ∈ opPathTree goodEnvSpecExt.
Proof.
  rewrite (opPathTree_insertions (Ext := testExternals)
             createGoodEnvSpec goodEnvSpecExt); [|vm_compute; reflexivity].
  vm_compute. do 6 apply list_elem_of_further. apply list_elem_of_here.
Defined.

Lemma corsVary_spec_witness :
  ∃ mustVary : bool,
    corsVary goodEnvSpecExt !! "apispec1" = Some mustVary
    ∧ (mustVary = true ↔ "*" ∈ ["*"] ∨ @nil string ≠ [] ∨ (1 > 1)%nat).
Proof.
  apply (corsVary_spec (Ext := testExternals) createGoodEnvSpec goodEnvSpecExt
           (flattenAPI apispec1)).
  - vm_compute. reflexivity.
  - vm_compute. repeat constructor; set_solver.
  - left.
Defined.

(** ** The constructor, step by step *)

Section Refinement.
Context `{Ext : Externals}.

Lemma forM_app {A} (l1 l2 : list A) (f : A → M unit) e :
  forM_ (l1 ++ l2) f e = bind (forM_ l1 f) (λ _, forM_ l2 f) e.
Proof.
  revert e. induction l1 as [|x l1 IH]; intros e; simpl; [done|].
  unfold bind in *. destruct (f x e) as [[[] e1]| |]; [|done..]. apply IH.
Qed.

Lemma performs_nil : performs (ret tt) [].
Proof. by intros e. Qed.

Lemma performs_step (st : step) : performs (execStep st) [st].
Proof.
  intros e. simpl. unfold bind.
  destruct (execStep st e) as [[[] e1]| |]; done.
Qed.

Lemma performs_bind (m k : M unit) (l1 l2 : list step) :
  performs m l1 → performs k l2 → performs (bind m (λ _, k)) (l1 ++ l2).
Proof.
  intros Hm Hk e. rewrite forM_app. unfold bind. rewrite Hm.
  destruct (forM_ l1 execStep e) as [[[] e1]| |]; [|done..]. apply Hk.
Qed.

Lemma performs_forM {A} (xs : list A) (body : A → M unit) (g : A → list step) :
  (∀ x, performs (body x) (g x)) →
  performs (forM_ xs body) (flat_map g xs).
Proof.
  intros Hbody. induction xs as [|x xs IH]; simpl.
  - apply performs_nil.
  - by apply performs_bind.
Qed.

Lemma performs_parse_then (s : string) (k : option Template_t → M unit)
    (l : list step) :
  performs (k (templateOf s)) l →
  performs (bind (parseTemplate s) (λ '(t, err), bind (check err) (λ _, k t)))
    ([StTemplate s] ++ l).
Proof.
  intros Hk e. rewrite forM_app. unfold bind at 1 3. simpl. unfold bind at 2 3.
  destruct (parseTemplate s e) as [[[t err] e1]| |] eqn:Ep; [|done..].
  destruct (runs_parseTemplate s e _ e1 Ep) as (Ht & _). simpl in Ht. subst t.
  unfold bind, check. destruct err; [done|]. apply Hk.
Qed.

Lemma performs_parse_check (s : string) :
  performs (bind (parseTemplate s) (λ '(_, err), check err)) [StTemplate s].
Proof. apply (performs_step (StTemplate s)). Qed.

Lemma performs_parameter (p : APIOperationParameter) :
  performs (bind (parseAPIOperationParameter (Transformation p)) check)
    (paramSteps p).
Proof.
  unfold parseAPIOperationParameter, paramSteps.
  destruct (Transformation p) as [t s]; simpl.
  destruct (bool_decide (t = "") && bool_decide (s = "")) eqn:Eb.
  - apply andb_true_iff in Eb as [Ht Hs].
    apply bool_decide_eq_true in Ht as ->. apply bool_decide_eq_true in Hs as ->.
    by intros e.
  - intros e. simpl. unfold bind.
    destruct (parseTemplate t e) as [[[t1 [x|]] e1]| |]; simpl; [done| |done..].
    destruct (parseTemplate s e1) as [[[t2 [y|]] e2]| |]; simpl; done.
Qed.

Lemma performs_parameters (ps : list APIOperationParameter) :
  performs (forM_ ps (λ i, bind (parseAPIOperationParameter (Transformation i)) check))
    (flat_map paramSteps ps).
Proof. apply performs_forM. intros p. apply performs_parameter. Qed.

Lemma performs_transforms (t : HTTPRequestTransforms) :
  performs (parseHTTPRequestTransforms t) (transformsSteps t).
Proof.
  unfold parseHTTPRequestTransforms, transformsSteps.
  apply performs_parse_then with (k := λ _, bind _ _).
  apply performs_bind.
  - apply performs_forM with (g := λ a, [StTemplate (anv_Value a)]).
    intros a. apply performs_parse_check.
  - apply performs_forM with (g := λ a, [StTemplate (anv_Value a)]).
    intros a. apply performs_parse_check.
Qed.

Lemma performs_buildOperation (api : APISpec) (op : APIOperation) :
  performs (buildOperation api op) (operationSteps api op).
Proof.
  unfold buildOperation, operationSteps. apply performs_bind.
  - destruct (decide (length (HTTPMatches op) = 0%nat)).
    + apply (performs_step (StOpPath _ _)).
    + apply performs_forM. intros m. unfold matchSteps.
      apply performs_parse_then with
        (k := λ t, modify (set_opPathTree (λ tr, AddChild tr _ 0 (mkOpTemplateMatch op t)))).
      apply (performs_step (StOpPath _ _)).
  - apply performs_bind; [apply performs_parameters | apply performs_transforms].
Qed.

Lemma performs_buildAPI (api : APISpec) :
  performs (buildAPI api) (apiSteps api).
Proof.
  unfold buildAPI, apiSteps, varyFlag.
  destruct (corsOrigins (AllowOrigins (Cors api))) as [allowedOrigins mustVary].
  simpl fst. simpl snd.
  apply (performs_bind _ _ [StApiPath _ _]); [apply (performs_step (StApiPath _ _))|].
  apply (performs_bind _ _ [StOrigins _ _]); [apply (performs_step (StOrigins _ _))|].
  apply performs_bind.
  { apply performs_forM with (g := λ r, [StRegExp r]).
    intros r. apply (performs_step (StRegExp r)). }
  apply (performs_bind _ _ [StVary _ _]); [apply (performs_step (StVary _ _))|].
  apply performs_bind; [apply performs_parameters|].
  apply performs_bind; [apply performs_transforms|].
  apply performs_forM. intros op. apply performs_buildOperation.
Qed.

(** *** What a sequence of steps does *)

Lemma execStep_ok (st : step) (e : EnvironmentSpecExt) :
  stepOk st → execStep st e = Ok (tt, stepEffect e st).
Proof.
  destruct st as [path api|k m|r|k b|s|path m]; simpl; try done.
  - unfold compileRegExp. by destruct (regexp_Compile r).
  - intros Hs. unfold parseTemplate.
    destruct (decide (s = "")) as [->|Hne]; [done|].
    specialize (Hs Hne). destruct (transform_Parse s) as [t err]. simpl in *.
    by subst err.
Qed.

Lemma execStep_failed (st : step) (e : EnvironmentSpecExt) (x : error) :
  execStep st e = Failed x →
  ∃ s, st = StTemplate s ∧ s ≠ "" ∧ (transform_Parse s).2 = Some x.
Proof.
  destruct st as [path api|k m|r|k b|s|path m]; simpl; try done.
  - unfold compileRegExp. by destruct (regexp_Compile r).
  - unfold parseTemplate. destruct (decide (s = "")) as [->|Hne]; [done|].
    destruct (transform_Parse s) as [t [y|]] eqn:Ep; [|done].
    intros [= <-]. exists s. by rewrite Ep.
Qed.


Lemma execStep_Ok_inv (st : step) (e e' : EnvironmentSpecExt) u :
  execStep st e = Ok (u, e') → stepOk st ∧ e' = stepEffect e st.
Proof.
  destruct st as [path api|k m|r|k b|s|path m]; simpl;
    try (by intros [= <- <-]).
  - unfold compileRegExp. destruct (regexp_Compile r); [|done].
    by intros [= <- <-].
  - unfold parseTemplate. destruct (decide (s = "")) as [->|Hne].
    + by intros [= <- <-].
    + destruct (transform_Parse s) as [t [y|]]; [done|]. by intros [= <- <-].
Qed.

Lemma exec_ok (l : list step) (e : EnvironmentSpecExt) :
  Forall stepOk l → forM_ l execStep e = Ok (tt, fold_left stepEffect l e).
Proof.
  intros Hl. revert e. induction Hl as [|st l Hst _ IH]; intros e; simpl; [done|].
  unfold bind. by rewrite execStep_ok.
Qed.

Lemma exec_Ok_inv (l : list step) (e e' : EnvironmentSpecExt) u :
  forM_ l execStep e = Ok (u, e') →
  Forall stepOk l ∧ e' = fold_left stepEffect l e.
Proof.
  revert e. induction l as [|st l IH]; intros e; simpl.
  - by intros [= <- <-].
  - unfold bind. destruct (execStep st e) as [[[] e1]| |] eqn:E1; [|done..].
    apply execStep_Ok_inv in E1 as [Hst ->]. intros Hrun.
    destruct (IH _ Hrun) as [Hl ->]. by split; [constructor|].
Qed.

Lemma exec_failed (l : list step) (e : EnvironmentSpecExt) (x : error) :
  forM_ l execStep e = Failed x →
  ∃ l1 s l2,
    l = l1 ++ StTemplate s :: l2
    ∧ Forall stepOk l1 ∧ s ≠ "" ∧ (transform_Parse s).2 = Some x.
Proof.
  revert e. induction l as [|st l IH]; intros e; simpl; [done|].
  unfold bind. destruct (execStep st e) as [[[] e1]|y|] eqn:E1; [| |done].
  - apply execStep_Ok_inv in E1 as [Hst _]. intros Hrun.
    destruct (IH _ Hrun) as (l1 & s & l2 & -> & Hl1 & Hs & Hx).
    exists (st :: l1), s, l2. by split; [|split; [constructor|]].
  - intros [= ->]. apply execStep_failed in E1 as (s & -> & Hs & Hx).
    by exists [], s, l.
Qed.


Lemma stepEffect_spec (l : list step) (e : EnvironmentSpecExt) :
  ext_EnvironmentSpec (fold_left stepEffect l e) = ext_EnvironmentSpec e.
Proof.
  revert e. induction l as [|st l IH]; intros e; simpl; [done|].
  rewrite IH. destruct st as [path api|k m|r|k b|s|path m]; simpl; try done.
  - by destruct (regexp_Compile r).
  - by destruct (decide (s = "")).
Qed.

Lemma bind_run {A B} (m : M A) (k : A → M B) (e : EnvironmentSpecExt) :
  bind m k e
  = match m e with
    | Ok (a, e') => k a e'
    | Failed err => Failed err
    | Panicked => Panicked
    end.
Proof. reflexivity. Qed.

Lemma bind_get {B} (k : EnvironmentSpecExt → M B) (e : EnvironmentSpecExt) :
  bind get k e = k e e.
Proof. reflexivity. Qed.

(** The constructor is the sequence of the steps of the specification. *)
Lemma build_steps (spec : EnvironmentSpec) (e : EnvironmentSpecExt) :
  ext_EnvironmentSpec e = spec →
  build spec e = forM_ (specSteps spec) execStep e.
Proof.
  intros Hspec. unfold build, specSteps. rewrite forM_app, !bind_run.
  rewrite (performs_forM (APIs spec) buildAPI apiSteps performs_buildAPI e).
  destruct (forM_ (flat_map apiSteps (APIs spec)) execStep e)
    as [[[] e1]| |] eqn:E1; [|done..].
  apply exec_Ok_inv in E1 as [_ ->]. rewrite bind_get.
  rewrite JWTAuthentications_perAPIOrder, stepEffect_spec, Hspec.
  apply (performs_forM (perAPIOrder spec)
           (λ j, forM_ (jwt_In j)
              (λ i, bind (parseAPIOperationParameter (Transformation i)) check))
           (λ j, flat_map paramSteps (jwt_In j))).
  intros j. apply performs_parameters.
Qed.

Lemma NewEnvironmentSpecExt_steps (spec : EnvironmentSpec) :
  NewEnvironmentSpecExt spec
  = match forM_ (specSteps spec) execStep
            (mkEnvironmentSpecExt spec path_NewTree path_NewTree ∅ ∅ ∅ ∅) with
    | Ok (_, ec) => Ok ec
    | Failed err => Failed err
    | Panicked => Panicked
    end.
Proof. unfold NewEnvironmentSpecExt. by rewrite build_steps. Qed.

(** *** The steps of a specification, kind by kind *)

Lemma stepTemplates_transforms (t : HTTPRequestTransforms) :
  stepTemplates (transformsSteps t) = transformTemplates t.
Proof.
  unfold transformsSteps, transformTemplates, stepTemplates.
  rewrite !omap_app, !omap_flat_map. simpl. by rewrite !flat_map_singleton.
Qed.

Lemma stepTemplates_operation (api : APISpec) (op : APIOperation) :
  stepTemplates (operationSteps api op)
  = map PathTemplate (HTTPMatches op)
    ++ flat_map paramTemplates (ca_In (op_ConsumerAuthorization op))
    ++ transformTemplates (op_HTTPRequestTransforms op).
Proof.
  unfold operationSteps. unfold stepTemplates at 1. rewrite !omap_app.
  change (omap _ (transformsSteps ?t)) with (stepTemplates (transformsSteps t)).
  rewrite stepTemplates_transforms, omap_flat_map. f_equal.
  destruct (HTTPMatches op) as [|m ms]; simpl; [done|].
  rewrite omap_flat_map. simpl. by rewrite flat_map_singleton.
Qed.

Lemma stepTemplates_api (api : APISpec) :
  stepTemplates (apiSteps api) = templatesOf (apiEvents api).
Proof.
  rewrite templatesOf_api. unfold apiSteps. unfold stepTemplates at 1.
  rewrite !omap_app, !omap_flat_map.
  change (omap _ (transformsSteps ?t)) with (stepTemplates (transformsSteps t)).
  rewrite stepTemplates_transforms. simpl. rewrite flat_map_nil. simpl.
  do 3 f_equal. apply flat_map_ext_elem. intros op _.
  apply stepTemplates_operation.
Qed.

Lemma stepTemplates_spec (spec : EnvironmentSpec) :
  stepTemplates (specSteps spec) = templatesOf (specEvents spec).
Proof.
  rewrite templatesOf_spec. unfold specSteps. unfold stepTemplates at 1.
  rewrite omap_app, !omap_flat_map. f_equal.
  - apply flat_map_ext_elem. intros api _. apply stepTemplates_api.
  - apply flat_map_ext_elem. intros j _. by rewrite omap_flat_map.
Qed.

Lemma flat_map_all_nil {A B} (f : A → list B) (l : list A) :
  (∀ x, f x = []) → flat_map f l = [].
Proof. intros Hf. induction l as [|x l IH]; simpl; [done|]. by rewrite Hf, IH. Qed.

Lemma omap_transformsSteps_none {C} (f : step → option C) (t : HTTPRequestTransforms) :
  (∀ s, f (StTemplate s) = None) → omap f (transformsSteps t) = [].
Proof.
  intros Hf. unfold transformsSteps. rewrite !omap_app, !omap_flat_map. simpl.
  rewrite Hf. simpl.
  rewrite !flat_map_all_nil; [done|..]; intros a; by rewrite Hf.
Qed.

Lemma omap_paramSteps_none {C} (f : step → option C)
    (ps : list APIOperationParameter) :
  (∀ s, f (StTemplate s) = None) → omap f (flat_map paramSteps ps) = [].
Proof.
  intros Hf. rewrite omap_flat_map.
  rewrite (flat_map_ext_elem _ (λ _, [])); [apply flat_map_nil|].
  intros p _. simpl. by rewrite !Hf.
Qed.

Lemma omap_operationSteps_none {C} (f : step → option C)
    (api : APISpec) (op : APIOperation) :
  (∀ s, f (StTemplate s) = None) → (∀ p m, f (StOpPath p m) = None) →
  omap f (operationSteps api op) = [].
Proof.
  intros Hf Hg. unfold operationSteps.
  rewrite !omap_app, omap_paramSteps_none, omap_transformsSteps_none by done.
  rewrite !app_nil_r. destruct (decide (length (HTTPMatches op) = 0%nat)).
  - simpl. by rewrite Hg.
  - rewrite omap_flat_map.
    rewrite (flat_map_ext_elem _ (λ _, [])); [apply flat_map_nil|].
    intros m _. simpl. by rewrite Hf, Hg.
Qed.

(** The steps of an API that are neither templates nor operation paths. *)
Lemma omap_apiSteps {C} (f : step → option C) (api : APISpec) :
  (∀ s, f (StTemplate s) = None) → (∀ p m, f (StOpPath p m) = None) →
  omap f (apiSteps api)
  = omap f
      ([StApiPath (["/"] ++ strings_Split (BasePath api) "/"%char) api;
        StOrigins (api_ID api) (corsOrigins (AllowOrigins (Cors api))).1]
       ++ flat_map (λ r, [StRegExp r]) (AllowOriginsRegexes (Cors api))
       ++ [StVary (api_ID api) (varyFlag (Cors api))]).
Proof.
  intros Hf Hg. unfold apiSteps.
  rewrite !omap_app, omap_paramSteps_none, omap_transformsSteps_none by done.
  rewrite (omap_flat_map f (operationSteps api)).
  rewrite (flat_map_all_nil _ (Operations api)).
  - by rewrite !app_nil_r.
  - intros op. by apply omap_operationSteps_none.
Qed.

Lemma omap_specSteps {C} (f : step → option C) (spec : EnvironmentSpec) :
  (∀ s, f (StTemplate s) = None) → (∀ p m, f (StOpPath p m) = None) →
  omap f (specSteps spec)
  = flat_map
      (λ api,
         omap f
           ([StApiPath (["/"] ++ strings_Split (BasePath api) "/"%char) api;
             StOrigins (api_ID api) (corsOrigins (AllowOrigins (Cors api))).1]
            ++ flat_map (λ r, [StRegExp r]) (AllowOriginsRegexes (Cors api))
            ++ [StVary (api_ID api) (varyFlag (Cors api))]))
      (APIs spec).
Proof.
  intros Hf Hg. unfold specSteps. rewrite omap_app, !omap_flat_map.
  rewrite (flat_map_ext_elem _ (λ _, []) (perAPIOrder spec)), flat_map_nil, app_nil_r.
  - apply flat_map_ext_elem. intros api _. by apply omap_apiSteps.
  - intros j _. by apply omap_paramSteps_none.
Qed.

Lemma stepRegExps_spec (spec : EnvironmentSpec) :
  stepRegExps (specSteps spec) = regExpStrings spec.
Proof.
  unfold stepRegExps, regExpStrings. rewrite omap_specSteps by done.
  apply flat_map_ext_elem. intros api _.
  rewrite !omap_app, omap_flat_map. simpl.
  by rewrite flat_map_singleton, map_id, app_nil_r.
Qed.

Lemma stepApiPaths_spec (spec : EnvironmentSpec) :
  stepApiPaths (specSteps spec)
  = map (λ api, ("/" :: strings_Split (BasePath api) "/"%char, api)) (APIs spec).
Proof.
  unfold stepApiPaths. rewrite omap_specSteps by done.
  rewrite <- flat_map_singleton. apply flat_map_ext_elem. intros api _.
  rewrite !omap_app, omap_flat_map. simpl. by rewrite flat_map_nil.
Qed.

Lemma stepOrigins_spec (spec : EnvironmentSpec) :
  stepOrigins (specSteps spec)
  = map (λ api, (api_ID api, (corsOrigins (AllowOrigins (Cors api))).1)) (APIs spec).
Proof.
  unfold stepOrigins. rewrite omap_specSteps by done.
  rewrite <- flat_map_singleton. apply flat_map_ext_elem. intros api _.
  rewrite !omap_app, omap_flat_map. simpl. by rewrite flat_map_nil.
Qed.

(** *** The state after the steps *)

Lemma stepEffect_apiPathTree (l : list step) (e : EnvironmentSpecExt) :
  apiPathTree (fold_left stepEffect l e) = apiPathTree e ++ stepApiPaths l.
Proof.
  revert e. induction l as [|st l IH]; intros e; simpl.
  - by rewrite app_nil_r.
  - rewrite IH. destruct st as [path api|k m|r|k b|s|path m]; simpl; try done.
    + unfold AddChild. simpl. by rewrite <- app_assoc.
    + by destruct (regexp_Compile r).
    + by destruct (decide (s = "")).
Qed.

Lemma stepEffect_compiledRegExps (l : list step) (e : EnvironmentSpecExt) :
  compiledRegExps (fold_left stepEffect l e)
  = fold_left cacheRegExp (stepRegExps l) (compiledRegExps e).
Proof.
  revert e. induction l as [|st l IH]; intros e; simpl; [done|].
  rewrite IH. destruct st as [path api|k m|r|k b|s|path m]; simpl; try done.
  - unfold cacheRegExp. by destruct (regexp_Compile r).
  - by destruct (decide (s = "")).
Qed.

Lemma stepEffect_corsAllowedOrigins (l : list step) (e : EnvironmentSpecExt) :
  corsAllowedOrigins (fold_left stepEffect l e)
  = fold_left setOrigins (stepOrigins l) (corsAllowedOrigins e).
Proof.
  revert e. induction l as [|st l IH]; intros e; simpl; [done|].
  rewrite IH. destruct st as [path api|k m|r|k b|s|path m]; simpl; try done.
  - by destruct (regexp_Compile r).
  - by destruct (decide (s = "")).
Qed.

Lemma Forall_stepOk (l : list step) :
  Forall stepOk l
  ↔ (∀ r, r ∈ stepRegExps l → regexp_Compile r ≠ None)
    ∧ (∀ s, s ∈ stepTemplates l → s ≠ "" → (transform_Parse s).2 = None).
Proof.
  induction l as [|st l IH].
  - split; [|constructor]. intros _. split; intros x Hx; by apply elem_of_nil in Hx.
  - rewrite Forall_cons, IH. unfold stepRegExps, stepTemplates.
    destruct st as [path api|k m|r|k b|s|path m]; simpl;
      try (split; [intros [_ H]; exact H | intros H; split; [exact I | exact H]]).
    + split.
      * intros [Hr [HR HT]]. split; [|done].
        intros r' [->|Hin]%elem_of_cons; [done|]. by apply HR.
      * intros [HR HT]. split; [apply HR; left|]. split; [|done].
        intros r' Hin. apply HR. by right.
    + split.
      * intros [Hs [HR HT]]. split; [done|].
        intros s' [->|Hin]%elem_of_cons; [done|]. by apply HT.
      * intros [HR HT]. split; [apply HT; left|]. split; [done|].
        intros s' Hin. apply HT. by right.
Qed.

End Refinement.

(** ** Further properties of the constructor *)

Section Outcomes.
Context `{Ext : Externals}.

Lemma elem_of_regExpStrings (spec : EnvironmentSpec) (r : string) :
  r ∈ regExpStrings spec
  ↔ ∃ api, api ∈ APIs spec ∧ r ∈ AllowOriginsRegexes (Cors api).
Proof.
  unfold regExpStrings. rewrite list_elem_of_In, in_flat_map.
  split; intros (api & H1 & H2); exists api; by rewrite ?list_elem_of_In in *.
Qed.

(** X1: the constructor returns an extension object exactly when every
    origin pattern of the specification compiles and [transform.Parse]
    accepts every non-empty template string of the specification. *)
Theorem NewEnvironmentSpecExt_succeeds_iff :
  ∀ spec : EnvironmentSpec,
    flattened spec →
    (∃ ec, NewEnvironmentSpecExt spec = Ok ec)
    ↔ (∀ api r, api ∈ APIs spec → r ∈ AllowOriginsRegexes (Cors api) →
         regexp_Compile r ≠ None)
      ∧ (∀ s, s ∈ templateStrings spec → s ≠ "" → (transform_Parse s).2 = None).
Proof.
  intros spec Hflat. rewrite NewEnvironmentSpecExt_steps. split.
  - intros [ec Hok].
    destruct (forM_ (specSteps spec) execStep _) as [[[] e1]| |] eqn:E; [|done..].
    apply exec_Ok_inv in E as [Hl _]. apply Forall_stepOk in Hl as [HR HT].
    rewrite stepRegExps_spec in HR. rewrite stepTemplates_spec in HT. split.
    + intros api r Hapi Hr. apply HR, elem_of_regExpStrings. eauto.
    + intros s Hs. apply HT. by apply elem_of_templatesOf_spec.
  - intros [HR HT]. rewrite exec_ok; [eauto|]. apply Forall_stepOk. split.
    + intros r Hr. rewrite stepRegExps_spec in Hr.
      apply elem_of_regExpStrings in Hr as (api & Hapi & Hr). eauto.
    + intros s Hs. rewrite stepTemplates_spec in Hs. apply HT.
      by apply elem_of_templatesOf_spec.
Qed.

(** X2: an error returned by the constructor is the error [transform.Parse]
    gives for a non-empty template string of the specification. *)
Theorem NewEnvironmentSpecExt_error_is_parse_error :
  ∀ (spec : EnvironmentSpec) (err : error),
    flattened spec →
    NewEnvironmentSpecExt spec = Failed err →
    ∃ s, s ∈ templateStrings spec ∧ s ≠ "" ∧ (transform_Parse s).2 = Some err.
Proof.
  intros spec err Hflat. rewrite NewEnvironmentSpecExt_steps.
  destruct (forM_ (specSteps spec) execStep _) as [[[] e1]|x|] eqn:E; [done| |done].
  intros [= ->]. apply exec_failed in E as (l1 & s & l2 & Hl & _ & Hs & Hx).
  exists s. split; [|done]. apply elem_of_templatesOf_spec; [done|].
  rewrite <- stepTemplates_spec, Hl. unfold stepTemplates.
  rewrite omap_app. apply elem_of_app. right. simpl. left.
Qed.


Lemma exec_regexps_panic (rs : list string) (e : EnvironmentSpecExt) :
  (∃ r, r ∈ rs ∧ regexp_Compile r = None) →
  forM_ (flat_map (λ r, [StRegExp r]) rs) execStep e = Panicked.
Proof.
  intros (r & Hin & Hr). revert e.
  induction rs as [|r' rs IH]; intros e; [by apply elem_of_nil in Hin|].
  simpl. rewrite bind_run. unfold compileRegExp.
  destruct (regexp_Compile r') as [re|] eqn:Er'; [|done]. unfold modify.
  apply IH. apply elem_of_cons in Hin as [->|Hin]; [congruence|done].
Qed.

(** X4: the origin patterns of an API are compiled before any of its
    templates is parsed: when the first API has a pattern that does not
    compile, the constructor panics, whatever the templates are. *)
Theorem NewEnvironmentSpecExt_panics_on_first_API :
  ∀ (id : string) (api : APISpec) (apis : list APISpec) (r : string),
    r ∈ AllowOriginsRegexes (Cors api) →
    regexp_Compile r = None →
    NewEnvironmentSpecExt (mkEnvironmentSpec id (api :: apis)) = Panicked.
Proof.
  intros id api apis r Hin Hr. rewrite NewEnvironmentSpecExt_steps.
  assert (Hsteps : ∃ l3,
    specSteps (mkEnvironmentSpec id (api :: apis))
    = [StApiPath (["/"] ++ strings_Split (BasePath api) "/"%char) api;
       StOrigins (api_ID api) (corsOrigins (AllowOrigins (Cors api))).1]
      ++ flat_map (λ r, [StRegExp r]) (AllowOriginsRegexes (Cors api)) ++ l3).
  { unfold specSteps.
    change (flat_map apiSteps (APIs (mkEnvironmentSpec id (api :: apis))))
      with (apiSteps api ++ flat_map apiSteps apis).
    unfold apiSteps at 1. rewrite <- !app_assoc. eexists. reflexivity. }
  destruct Hsteps as [l3 ->].
  rewrite forM_app, bind_run, exec_ok by (by repeat constructor).
  rewrite forM_app, bind_run, exec_regexps_panic; [done|]. eauto.
Qed.

End Outcomes.

(** ** Further properties of the stores *)

Section MoreStores.
Context `{Ext : Externals}.

Lemma strings_Split_nonempty (s : string) (sep : Ascii.ascii) :
  strings_Split s sep ≠ [].
Proof.
  destruct s as [|c s]; simpl; [done|].
  destruct (decide (c = sep)); [done|]. by destruct (strings_Split s sep).
Qed.

Lemma strings_Join_Split (s : string) (sep : Ascii.ascii) :
  strings_Join (strings_Split s sep) sep = s.
Proof.
  induction s as [|c s IH]; simpl; [done|].
  pose proof (strings_Split_nonempty s sep) as Hne.
  destruct (decide (c = sep)) as [->|Hc].
  - destruct (strings_Split s sep) as [|h t]; [done|].
    change (strings_Join ("" :: h :: t) sep)
      with (String sep (strings_Join (h :: t) sep)).
    by rewrite IH.
  - destruct (strings_Split s sep) as [|h t]; [done|].
    destruct t as [|h' t]; simpl in *; by rewrite <- IH.
Qed.

Lemma NewEnvironmentSpecExt_Ok_steps (spec : EnvironmentSpec) (ec : EnvironmentSpecExt) :
  NewEnvironmentSpecExt spec = Ok ec →
  ec = fold_left stepEffect (specSteps spec)
         (mkEnvironmentSpecExt spec path_NewTree path_NewTree ∅ ∅ ∅ ∅).
Proof.
  rewrite NewEnvironmentSpecExt_steps.
  destruct (forM_ (specSteps spec) execStep _) as [[[] e1]| |] eqn:E; [|done..].
  intros [= <-]. by apply exec_Ok_inv in E as [_ ->].
Qed.

(** X5: after a successful construction the base-path tree has received
    one key per API, in order: the segment ["/"] followed by the pieces of
    the base path between slashes, so that joining the pieces with slashes
    gives the base path back. *)
Theorem apiPathTree_keys :
  ∀ (spec : EnvironmentSpec) (ec : EnvironmentSpecExt),
    NewEnvironmentSpecExt spec = Ok ec →
    apiPathTree ec
    = map (λ api, ("/" :: strings_Split (BasePath api) "/"%char, api)) (APIs spec)
    ∧ ∀ key api, (key, api) ∈ apiPathTree ec →
        api ∈ APIs spec
        ∧ ∃ segments, key = "/" :: segments ∧ segments ≠ []
                      ∧ strings_Join segments "/"%char = BasePath api.
Proof.
  intros spec ec Hok. apply NewEnvironmentSpecExt_Ok_steps in Hok as ->.
  rewrite stepEffect_apiPathTree, stepApiPaths_spec. simpl. split; [done|].
  intros key api Hin. apply list_elem_of_fmap in Hin as (api' & [= -> ->] & Hin).
  split; [done|]. eexists. split; [done|]. split.
  - apply strings_Split_nonempty.
  - apply strings_Join_Split.
Qed.

Lemma fold_insert_notin {V} (l : list (string * V)) (m : gmap string V) k :
  k ∉ l.*1 → fold_left (λ m kv, <[kv.1 := kv.2]> m) l m !! k = m !! k.
Proof.
  revert m. induction l as [|[k' v'] l IH]; intros m Hk; simpl; [done|].
  simpl in Hk. apply not_elem_of_cons in Hk as [Hne Hk].
  rewrite IH by done. by rewrite lookup_insert_ne.
Qed.

Lemma fold_insert_lookup {V} (l : list (string * V)) (m : gmap string V) k v :
  NoDup l.*1 → (k, v) ∈ l →
  fold_left (λ m kv, <[kv.1 := kv.2]> m) l m !! k = Some v.
Proof.
  revert m. induction l as [|[k' v'] l IH]; intros m Hnd Hin; simpl.
  - by apply elem_of_nil in Hin.
  - simpl in Hnd. apply NoDup_cons in Hnd as [Hk' Hnd].
    apply elem_of_cons in Hin as [[= <- <-]|Hin].
    + rewrite fold_insert_notin by done. apply lookup_insert_eq.
    + by apply IH.
Qed.

Lemma corsOrigins_lookup (origins : list string) (o : string) :
  (corsOrigins origins).1 !! o = if decide (o ∈ origins) then Some true else None.
Proof.
  unfold corsOrigins.
  assert (H : ∀ (l : list string) (m : gmap string bool) (b : bool),
    (fold_left
       (λ '(allowedOrigins, mustVary) o,
          (<[o := true]> allowedOrigins,
           if decide (o = wildcard) then true else mustVary))
       l (m, b)).1 !! o = if decide (o ∈ l) then Some true else m !! o).
  { intros l. induction l as [|x l IH]; intros m b; simpl.
    - done.
    - rewrite IH. destruct (decide (o ∈ l)) as [Hin|Hn].
      + rewrite decide_True; [done|]. by right.
      + destruct (decide (x = o)) as [->|Hne].
        * rewrite lookup_insert_eq, decide_True; [done|]. left.
        * rewrite lookup_insert_ne by done. rewrite decide_False; [done|].
          intros [?|?]%elem_of_cons; congruence. }
  by rewrite H, lookup_empty.
Qed.

(** X6: after a successful construction from a specification with distinct
    API IDs, the allowed-origin set stored for an API holds exactly the
    literal origins of the API, each mapped to true. *)
Theorem corsAllowedOrigins_spec :
  ∀ (spec : EnvironmentSpec) (ec : EnvironmentSpecExt) (api : APISpec),
    NewEnvironmentSpecExt spec = Ok ec →
    NoDup (map api_ID (APIs spec)) →
    api ∈ APIs spec →
    ∃ allowedOrigins : gmap string bool,
      corsAllowedOrigins ec !! api_ID api = Some allowedOrigins
      ∧ ∀ o, allowedOrigins !! o
             = if decide (o ∈ AllowOrigins (Cors api)) then Some true else None.
Proof.
  intros spec ec api Hok Hnd Hin.
  apply NewEnvironmentSpecExt_Ok_steps in Hok as ->.
  rewrite stepEffect_corsAllowedOrigins, stepOrigins_spec. simpl.
  exists (corsOrigins (AllowOrigins (Cors api))).1. split.
  - apply (fold_insert_lookup
             (map (λ api, (api_ID api, (corsOrigins (AllowOrigins (Cors api))).1))
                (APIs spec))).
    + by rewrite <- list_fmap_compose.
    + apply list_elem_of_fmap. by exists api.
  - apply corsOrigins_lookup.
Qed.

Lemma fold_cacheRegExp_lookup (l : list string) (m : gmap string Regexp) (r : string) :
  fold_left cacheRegExp l m !! r
  = if decide (r ∈ l)
    then match regexp_Compile r with Some re => Some re | None => m !! r end
    else m !! r.
Proof.
  revert m. induction l as [|x l IH]; intros m; simpl.
  - done.
  - rewrite IH. unfold cacheRegExp.
    destruct (decide (r ∈ l)) as [Hin|Hn].
    + rewrite decide_True by (by right).
      destruct (regexp_Compile r) as [re|] eqn:Er; [done|].
      destruct (regexp_Compile x) as [re'|] eqn:Ex; [|done].
      rewrite lookup_insert_ne; [done|]. congruence.
    + destruct (decide (x = r)) as [->|Hne].
      * rewrite decide_True by left.
        destruct (regexp_Compile r); [by rewrite lookup_insert_eq|done].
      * rewrite decide_False by (intros [?|?]%elem_of_cons; congruence).
        destruct (regexp_Compile x); [by rewrite lookup_insert_ne|done].
Qed.

(** X7: after a successful construction the cache of compiled patterns
    holds, under each origin pattern of the specification, what
    [regexp.MustCompile] made of it, and nothing under any other key. *)
Theorem compiledRegExps_spec :
  ∀ (spec : EnvironmentSpec) (ec : EnvironmentSpecExt) (r : string),
    NewEnvironmentSpecExt spec = Ok ec →
    (r ∈ regExpStrings spec →
     ∃ re, regexp_Compile r = Some re ∧ compiledRegExps ec !! r = Some re)
    ∧ (r ∉ regExpStrings spec → compiledRegExps ec !! r = None).
Proof.
  intros spec ec r Hok.
  pose proof Hok as Hst. rewrite NewEnvironmentSpecExt_steps in Hst.
  destruct (forM_ (specSteps spec) execStep _) as [[[] e1]| |] eqn:E; [|done..].
  apply exec_Ok_inv in E as [Hall _]. apply Forall_stepOk in Hall as [HR _].
  rewrite stepRegExps_spec in HR. clear Hst.
  apply NewEnvironmentSpecExt_Ok_steps in Hok as ->.
  rewrite stepEffect_compiledRegExps, stepRegExps_spec, fold_cacheRegExp_lookup.
  simpl. split; intros Hin.
  - rewrite decide_True by done. specialize (HR r Hin).
    destruct (regexp_Compile r) as [re|]; [eauto|done].
  - by rewrite decide_False, lookup_empty.
Qed.

(** X8: after a successful construction from a validated specification,
    [GetTemplate] returns nil for the empty string and for every string
    that is not a template string of the specification. *)
Theorem GetTemplate_unknown :
  ∀ (spec : EnvironmentSpec) (ec : EnvironmentSpecExt) (s : string),
    flattened spec →
    NewEnvironmentSpecExt spec = Ok ec →
    s = "" ∨ s ∉ templateStrings spec →
    compiledTemplates ec !! s = None ∧ GetTemplate ec s = None.
Proof.
  intros spec ec s Hflat Hok Hs. unfold GetTemplate.
  rewrite (compiledTemplates_lookup spec ec s Hflat Hok).
  rewrite decide_False; [done|]. unfold distinctTemplates.
  rewrite elem_of_remove_dups, list_elem_of_filter. intros [Hne Hin].
  by destruct Hs.
Qed.

(** X9: the template cache depends only on which non-empty template
    strings occur in a specification: two validated specifications with
    the same template strings, wherever and however often they occur,
    give equal caches. *)
Theorem compiledTemplates_same_strings :
  ∀ (spec1 spec2 : EnvironmentSpec) (ec1 ec2 : EnvironmentSpecExt),
    flattened spec1 → flattened spec2 →
    NewEnvironmentSpecExt spec1 = Ok ec1 →
    NewEnvironmentSpecExt spec2 = Ok ec2 →
    (∀ s, s ≠ "" → s ∈ templateStrings spec1 ↔ s ∈ templateStrings spec2) →
    compiledTemplates ec1 = compiledTemplates ec2.
Proof.
  intros spec1 spec2 ec1 ec2 Hf1 Hf2 Hok1 Hok2 Hsame. apply map_eq. intros s.
  rewrite (compiledTemplates_lookup spec1 ec1 s Hf1 Hok1),
    (compiledTemplates_lookup spec2 ec2 s Hf2 Hok2).
  unfold distinctTemplates.
  destruct (decide (s ∈ remove_dups (filter (λ s, s ≠ "") (templateStrings spec1))))
    as [H1|H1];
  destruct (decide (s ∈ remove_dups (filter (λ s, s ≠ "") (templateStrings spec2))))
    as [H2|H2]; try done; exfalso;
  rewrite elem_of_remove_dups, list_elem_of_filter in H1;
  rewrite elem_of_remove_dups, list_elem_of_filter in H2.
  - destruct H1 as [Hne H1]. apply H2. split; [done|]. by apply Hsame.
  - destruct H2 as [Hne H2]. apply H1. split; [done|]. by apply Hsame.
Qed.

End MoreStores.

(** ** Further properties of the operation tree and of emptiness *)

Section MoreOperations.
Context `{Ext : Externals}.

(** X10: every key the operation tree has received belongs to an operation
    of an API of the specification; it starts with the ID of that API, has
    at least three segments, and is either the fallback key of an
    operation without matches or the key of one match of the operation,
    whose path segments joined with slashes give the path template back;
    unless the any-method token is ["*"] itself, it is never a method
    segment. *)
Theorem opPathTree_keys :
  ∀ (spec : EnvironmentSpec) (ec : EnvironmentSpecExt)
    (key : list string) (m : OpTemplateMatch),
    NewEnvironmentSpecExt spec = Ok ec →
    (key, m) ∈ opPathTree ec →
    (∃ api, api ∈ APIs spec ∧ operation m ∈ Operations api
       ∧ ((HTTPMatches (operation m) = []
           ∧ key = [api_ID api; "*"; "*"] ∧ template m = None)
          ∨ (∃ hm segments,
               hm ∈ HTTPMatches (operation m)
               ∧ key = api_ID api
                       :: (if decide (Method hm = anyMethod) then "*" else Method hm)
                       :: segments
               ∧ segments ≠ []
               ∧ strings_Join segments "/"%char = PathTemplate hm
               ∧ template m = templateOf (PathTemplate hm))))
    ∧ (3 ≤ length key)%nat
    ∧ (anyMethod ≠ "*" → key !! 1%nat ≠ Some anyMethod).
Proof.
  intros spec ec key m Hok Hin.
  apply NewEnvironmentSpecExt_Ok in Hok as (_ & _ & Hop & _).
  rewrite Hop, operationsOf_spec in Hin.
  apply list_elem_of_In, in_flat_map in Hin as (api & Hapi & Hin).
  apply in_flat_map in Hin as (op & Hop' & Hin).
  apply list_elem_of_In in Hapi, Hop'. unfold operationInsertions in Hin.
  destruct (decide (HTTPMatches op = [])) as [Hnil|Hnn].
  - destruct Hin as [[= <- <-]|[]]. simpl. split; [|split; [lia|]].
    + exists api. split; [done|]. split; [done|]. left. done.
    + intros Hne [= Heq]. by apply Hne.
  - apply in_map_iff in Hin as (hm & [= <- <-] & Hhm).
    apply list_elem_of_In in Hhm. simpl.
    pose proof (strings_Split_nonempty (PathTemplate hm) "/"%char) as Hne.
    split; [|split].
    + exists api. split; [done|]. split; [done|]. right.
      exists hm, (strings_Split (PathTemplate hm) "/"%char).
      split; [done|]. split; [done|]. split; [done|].
      split; [apply strings_Join_Split|done].
    + destruct (strings_Split (PathTemplate hm) "/"%char); [done|]. simpl. lia.
    + intros Hany [= Heq]. destruct (decide (Method hm = anyMethod)); congruence.
Qed.

Lemma childrenEmpty_false_inv (rs : list AuthenticationRequirement) :
  childrenEmpty rs = false → ∃ r, r ∈ rs ∧ isEmpty r = false.
Proof.
  induction rs as [|r rs IH]; simpl; [done|].
  destruct (isEmpty r) eqn:Er; simpl.
  - intros H. destruct (IH H) as (r' & Hin & Hr'). exists r'. split; [by right|done].
  - intros _. exists r. split; [left|done].
Qed.

(** X11: the recursive helper [isEmpty] is false exactly when the tree
    holds a JWT leaf at some depth; nil and unknown variants, and any-of
    and all-of nodes over them, are empty however they nest. *)
Theorem isEmpty_false_iff_containsJWT :
  ∀ a : AuthenticationRequirement, isEmpty a = false ↔ containsJWT a.
Proof.
  intros a. split; [|apply containsJWT_not_empty].
  induction a as [d|d j|d rs IH|d rs IH|d tag]
    using AuthenticationRequirement_nested_ind; try done.
  - intros _. constructor.
  - rewrite isEmpty_any. intros H.
    apply childrenEmpty_false_inv in H as (r & Hin & Hr).
    rewrite Forall_forall in IH. eapply containsJWT_any; eauto.
  - rewrite isEmpty_all. intros H.
    apply childrenEmpty_false_inv in H as (r & Hin & Hr).
    rewrite Forall_forall in IH. eapply containsJWT_all; eauto.
Qed.

End MoreOperations.

(** ** Emptiness of request transforms *)

Section TransformsEmpty.
Variable unicode_TrimFunc : string → string.
Variable unicode_TrimRightFunc : string → string.

Lemma trimStart_ascii (s : list Ascii.ascii) :
  Forall (λ c, isASCIIByte c = true) s →
  ∃ rest,
    trimStart s = inr rest
    ∧ Forall (λ c, isASCIIByte c = true) rest
    ∧ (rest = [] ↔ Forall (λ c, asciiSpace c = true) s)
    ∧ (∀ c r, rest = c :: r → asciiSpace c = false).
Proof.
  induction 1 as [|c s Hc Hs (rest & Hrest & Hascii & Hnil & Hhead)]; simpl.
  - exists []. by repeat split.
  - rewrite Hc. simpl. destruct (asciiSpace c) eqn:Esp; simpl.
    + exists rest. split; [done|]. split; [done|]. split; [|done].
      rewrite Hnil, Forall_cons. tauto.
    + exists (c :: s). split; [done|]. split; [by constructor|]. split.
      * split; [done|]. intros [H _]%Forall_cons. congruence.
      * by intros c' r [= <- <-].
Qed.

Lemma trimStop_ascii (l : list Ascii.ascii) :
  Forall (λ c, isASCIIByte c = true) l →
  ∃ r, trimStop l = inr r ∧ (r = [] ↔ Forall (λ c, asciiSpace c = true) l).
Proof.
  induction 1 as [|c l Hc Hl (r & Hr & Hnil)]; simpl.
  - exists []. split; [done|]. split; [constructor|done].
  - rewrite Hc. simpl. destruct (asciiSpace c) eqn:Esp; simpl.
    + exists r. split; [done|]. rewrite Hnil, Forall_cons. tauto.
    + exists (c :: l). split; [done|]. split; [done|].
      intros [H _]%Forall_cons. congruence.
Qed.

Lemma length_string_of_list_ascii_0 (l : list Ascii.ascii) :
  (String.length (string_of_list_ascii l) =? 0)%nat = true ↔ l = [].
Proof. destruct l; simpl; split; done. Qed.

Lemma TrimSpace_empty_ascii (s : string) :
  Forall (λ c, isASCIIByte c = true) (list_ascii_of_string s) →
  (String.length (strings_TrimSpace unicode_TrimFunc unicode_TrimRightFunc s) =? 0)%nat
  = true
  ↔ Forall (λ c, asciiSpace c = true) (list_ascii_of_string s).
Proof.
  intros Hs. unfold strings_TrimSpace.
  destruct (trimStart_ascii _ Hs) as (rest & -> & Hascii & Hnil & Hhead).
  destruct (trimStop_ascii (rev rest)) as (r & -> & Hr).
  { apply Forall_forall. intros c Hc. rewrite Forall_forall in Hascii.
    apply Hascii, list_elem_of_In, in_rev. by apply list_elem_of_In. }
  rewrite length_string_of_list_ascii_0, <- Hnil.
  split.
  - intros Hrev. assert (r = []) as Hr0.
    { apply (f_equal (@rev _)) in Hrev. by rewrite rev_involutive in Hrev. }
    apply Hr in Hr0. destruct rest as [|c rest']; [done|].
    specialize (Hhead c rest' eq_refl). rewrite Forall_forall in Hr0.
    assert (asciiSpace c = true); [|congruence].
    apply Hr0, list_elem_of_In, in_rev. rewrite rev_involutive. left. done.
  - intros ->. simpl in Hr. assert (r = []) as -> by (apply Hr; constructor). done.
Qed.

(** X12: for request transforms whose path transform is made of ASCII bytes,
    [isEmpty] is true exactly when the header and query transforms add and
    remove nothing and every byte of the path transform is white space (a
    tab, a line feed, a vertical tab, a form feed, a carriage return or a
    space). *)
Theorem HTTPRequestTransforms_isEmpty_iff :
  ∀ h : HTTPRequestTransforms,
    Forall (λ c, isASCIIByte c = true) (list_ascii_of_string (PathTransform h)) →
    HTTPRequestTransforms_isEmpty unicode_TrimFunc unicode_TrimRightFunc h = true
    ↔ Add (HeaderTransforms h) = [] ∧ Remove (HeaderTransforms h) = []
      ∧ Add (QueryTransforms h) = [] ∧ Remove (QueryTransforms h) = []
      ∧ Forall (λ c, asciiSpace c = true) (list_ascii_of_string (PathTransform h)).
Proof.
  intros h Hascii. unfold HTTPRequestTransforms_isEmpty, NameValueTransforms_isEmpty.
  rewrite !andb_true_iff, (TrimSpace_empty_ascii _ Hascii), !Nat.eqb_eq.
  rewrite !length_zero_iff_nil. tauto.
Qed.

End TransformsEmpty.

(** ** The further properties on the test data *)

(** [TestHTTPRequestTransformsIsEmpty] *)
Example test_transforms_empty :
  HTTPRequestTransforms_isEmpty id id noTransforms = true.
Proof. reflexivity. Qed.

Example test_transforms_path :
  HTTPRequestTransforms_isEmpty id id
    (mkHTTPRequestTransforms (mkNameValueTransforms [] [])
       (mkNameValueTransforms [] []) "x") = false.
Proof. reflexivity. Qed.

Example test_transforms_header_add :
  HTTPRequestTransforms_isEmpty id id
    (mkHTTPRequestTransforms (mkNameValueTransforms [mkAddNameValue "x" "x" false] [])
       (mkNameValueTransforms [] []) "") = false.
Proof. reflexivity. Qed.

Example test_transforms_query_remove :
  HTTPRequestTransforms_isEmpty id id
    (mkHTTPRequestTransforms (mkNameValueTransforms [] [])
       (mkNameValueTransforms [] ["x"]) "") = false.
Proof. reflexivity. Qed.

Lemma NewEnvironmentSpecExt_succeeds_iff_witness :
  ∃ ec, NewEnvironmentSpecExt (Ext := testExternals) createGoodEnvSpec = Ok ec.
Proof.
  apply (proj2 (NewEnvironmentSpecExt_succeeds_iff (Ext := testExternals)
                  createGoodEnvSpec (flattenSpec_flattened _))).
  split; intros; done.
Defined.

Lemma NewEnvironmentSpecExt_error_is_parse_error_witness :
  ∃ s, s ∈ templateStrings badTemplateSpec ∧ s ≠ ""
       ∧ (transform_Parse (Externals := strictExternals) s).2
         = Some "unbalanced braces".
Proof.
  apply (NewEnvironmentSpecExt_error_is_parse_error (Ext := strictExternals)
           badTemplateSpec "unbalanced braces").
  - change badTemplateSpec with (flattenSpec badTemplateSpec).
    apply flattenSpec_flattened.
  - vm_compute. reflexivity.
Defined.


Lemma NewEnvironmentSpecExt_panics_on_first_API_witness :
  NewEnvironmentSpecExt (Ext := strictExternals) badRegExpSpec = Panicked.
Proof.
  apply (NewEnvironmentSpecExt_panics_on_first_API (Ext := strictExternals)
           "spec" _ [] "*").
  - simpl. right. left.
  - reflexivity.
Defined.

Lemma apiPathTree_keys_witness :
  (apiPathTree goodEnvSpecExt).*1
  = [["/"; ""; "v1"]; ["/"; ""; "v2"]; ["/"; ""; "v3"]; ["/"; ""; "v4"; "*"]].
Proof.
  rewrite (proj1 (apiPathTree_keys (Ext := testExternals)
                    createGoodEnvSpec goodEnvSpecExt goodEnvSpecExt_built)).
  reflexivity.
Defined.

Lemma twiceSpecExt_built :
  NewEnvironmentSpecExt (Ext := testExternals) twiceSpec = Ok twiceSpecExt.
Proof. vm_compute. reflexivity. Qed.

Lemma onceSpecExt_built :
  NewEnvironmentSpecExt (Ext := testExternals) onceSpec = Ok onceSpecExt.
Proof. vm_compute. reflexivity. Qed.

Lemma corsAllowedOrigins_spec_witness :
  ∃ allowedOrigins : gmap string bool,
    corsAllowedOrigins twiceSpecExt !! "api" = Some allowedOrigins
    ∧ ∀ o, allowedOrigins !! o
           = if decide (o ∈ ["https://a"; "https://b"]) then Some true else None.
Proof.
  apply (corsAllowedOrigins_spec (Ext := testExternals) twiceSpec twiceSpecExt
           twiceAPI twiceSpecExt_built).
  - vm_compute. repeat constructor. set_solver.
  - left.
Defined.

Lemma compiledRegExps_spec_witness :
  ∃ re, regexp_Compile (Externals := testExternals) "https://.*" = Some re
        ∧ compiledRegExps twiceSpecExt !! "https://.*" = Some re.
Proof.
  apply (proj1 (compiledRegExps_spec (Ext := testExternals) twiceSpec twiceSpecExt
                  "https://.*" twiceSpecExt_built)).
  left.
Defined.

Lemma GetTemplate_unknown_witness :
  compiledTemplates goodEnvSpecExt !! "" = None
  ∧ GetTemplate goodEnvSpecExt "" = None.
Proof.
  apply (GetTemplate_unknown (Ext := testExternals) createGoodEnvSpec goodEnvSpecExt "").
  - apply flattenSpec_flattened.
  - exact goodEnvSpecExt_built.
  - by left.
Defined.

Lemma compiledTemplates_same_strings_witness :
  compiledTemplates onceSpecExt = compiledTemplates twiceSpecExt.
Proof.
  apply (compiledTemplates_same_strings (Ext := testExternals)
           onceSpec twiceSpec onceSpecExt twiceSpecExt).
  - change onceSpec with (flattenSpec onceSpec). apply flattenSpec_flattened.
  - change twiceSpec with (flattenSpec twiceSpec). apply flattenSpec_flattened.
  - exact onceSpecExt_built.
  - exact twiceSpecExt_built.
  - intros s _. vm_compute templateStrings. set_solver.
Defined.

Lemma opPathTree_keys_witness :
  (3 ≤ length ["apispec2"; "*"; ""; "petstore"])%nat
  ∧ (anyMethod (Externals := testExternals) ≠ "*" →
     ["apispec2"; "*"; ""; "petstore"] !! 1%nat
     ≠ Some (anyMethod (Externals := testExternals))).
Proof.
  destruct (opPathTree goodEnvSpecExt !! 4%nat) as [[key m]|] eqn:E;
    [|vm_compute in E; discriminate E].
  assert (Hkey : key = ["apispec2"; "*"; ""; "petstore"]).
  { vm_compute in E. by injection E as <- _. }
  rewrite <- Hkey.
  apply (opPathTree_keys (Ext := testExternals) createGoodEnvSpec goodEnvSpecExt key m
           goodEnvSpecExt_built).
  apply list_elem_of_lookup. eauto.
Defined.

Lemma isEmpty_false_iff_containsJWT_witness :
  containsJWT (req (AnyAuthenticationRequirements [req NoRequirements; req (JWT emptyJWT)])).
Proof.
  apply (proj1 (isEmpty_false_iff_containsJWT
                  (req (AnyAuthenticationRequirements
                          [req NoRequirements; req (JWT emptyJWT)])))).
  reflexivity.
Defined.

Lemma HTTPRequestTransforms_isEmpty_iff_witness :
  HTTPRequestTransforms_isEmpty id id blankTransforms = true.
Proof.
  apply (HTTPRequestTransforms_isEmpty_iff id id blankTransforms).
  - repeat constructor.
  - repeat split; repeat constructor.
Defined.

(** ** The vary flag and the allowed origins together *)

Section VaryOrigins.
Context `{Ext : Externals}.

(** X13: after a successful construction from a specification with distinct
    API IDs, an API whose vary flag is false has no origin pattern, and
    its stored allowed-origin set holds at most one origin, which is not
    ["*"]: the allowed origin does not depend on the request. *)
Theorem corsVary_false_single_origin :
  ∀ (spec : EnvironmentSpec) (ec : EnvironmentSpecExt) (api : APISpec),
    NewEnvironmentSpecExt spec = Ok ec →
    NoDup (map api_ID (APIs spec)) →
    api ∈ APIs spec →
    corsVary ec !! api_ID api = Some false →
    AllowOriginsRegexes (Cors api) = []
    ∧ ∃ allowedOrigins : gmap string bool,
        corsAllowedOrigins ec !! api_ID api = Some allowedOrigins
        ∧ allowedOrigins !! "*" = None
        ∧ ∀ o1 o2, is_Some (allowedOrigins !! o1) → is_Some (allowedOrigins !! o2) →
                   o1 = o2.
Proof.
  intros spec ec api Hok Hnd Hin Hvary.
  pose proof Hok as Hstores. apply NewEnvironmentSpecExt_Ok in Hstores as (_ & _ & _ & Hv).
  rewrite Hv, varyOf_spec in Hvary.
  rewrite (fold_setVary_lookup _ _ (api_ID api) (varyFlag (Cors api))) in Hvary.
  2:{ by rewrite <- list_fmap_compose. }
  2:{ apply list_elem_of_fmap. by exists api. }
  injection Hvary as Hflag.
  assert (Hnot : ¬ ("*" ∈ AllowOrigins (Cors api)
                    ∨ AllowOriginsRegexes (Cors api) ≠ []
                    ∨ (length (AllowOrigins (Cors api)) > 1)%nat)).
  { rewrite <- varyFlag_spec. congruence. }
  apply NewEnvironmentSpecExt_Ok_steps in Hok as ->.
  rewrite stepEffect_corsAllowedOrigins, stepOrigins_spec. simpl. split.
  - destruct (AllowOriginsRegexes (Cors api)); [done|]. exfalso. apply Hnot. by right; left.
  - exists (corsOrigins (AllowOrigins (Cors api))).1. split; [|split].
    + apply (fold_insert_lookup
               (map (λ api, (api_ID api, (corsOrigins (AllowOrigins (Cors api))).1))
                  (APIs spec))).
      * by rewrite <- list_fmap_compose.
      * apply list_elem_of_fmap. by exists api.
    + rewrite corsOrigins_lookup. rewrite decide_False; [done|]. tauto.
    + intros o1 o2. rewrite !corsOrigins_lookup.
      destruct (decide (o1 ∈ AllowOrigins (Cors api))) as [H1|]; [|by intros [? ?]].
      destruct (decide (o2 ∈ AllowOrigins (Cors api))) as [H2|]; [|by intros _ [? ?]].
      intros _ _. destruct (AllowOrigins (Cors api)) as [|a [|b l]].
      * by apply elem_of_nil in H1.
      * apply list_elem_of_singleton in H1, H2. congruence.
      * exfalso. apply Hnot. right; right. simpl. lia.
Qed.

End VaryOrigins.

Lemma corsVary_false_single_origin_witness :
  AllowOriginsRegexes (Cors singleOriginAPI) = []
  ∧ ∃ allowedOrigins : gmap string bool,
      corsAllowedOrigins singleOriginExt !! "api" = Some allowedOrigins
      ∧ allowedOrigins !! "*" = None
      ∧ ∀ o1 o2, is_Some (allowedOrigins !! o1) → is_Some (allowedOrigins !! o2) →
                 o1 = o2.
Proof.
  apply (corsVary_false_single_origin (Ext := testExternals)
           singleOriginSpec singleOriginExt singleOriginAPI).
  - vm_compute. reflexivity.
  - vm_compute. repeat constructor. set_solver.
  - left.
  - vm_compute. reflexivity.
Defined.
